(** * posts.py: HSS post selection and cap/bearing plate sizing

    A shallow embedding of [src/posts.py] and the properties its
    specification states about it.

    Numbers.  The program computes with Python numbers (ints and binary64
    floats, mixed freely).  It is embedded twice.

    - In exact arithmetic (the first part): numbers are the real numbers
      [R], every formula of the source is written with the same operators
      in the same order, and nothing is rounded.  This is the program as
      its specification reads it.  It carries the properties that do not
      turn on the last bit of a computed value: the order of the loops and
      of the [try] block, what is an error and what is a design, the sums
      of the loads, monotonicity, the example of the source file.  [R] does
      not compute: a run on concrete inputs is a lemma, proved by bounding
      each intermediate value.

    - In binary64 ([Module Binary64]): [select_hss_size] and
      [calculate_plates] on the floats of the machine, with infinities, NaN,
      overflow and underflow.  It carries the properties that do turn on
      computed values: which row the scan returns and when it raises, the
      bearing length rounded up to a quarter inch and the bearing-stress
      check, the cap-plate thickness rounded up to an eighth.  Floats
      compute: a run on concrete inputs is an evaluation.

    Where a value of the first embedding falls exactly on a threshold of
    the program (an interaction ratio of exactly 0.9, a length that is
    exactly a multiple of 1/4 in), the binary64 run can fall on the other
    side by one rounding error: there the first embedding follows the
    exact value, the second the computed one.

    Exceptions.  The operations of the source that can raise are modelled
    as such, in a small error monad:
    - [x / y] raises [ZeroDivisionError] when [y] is zero;
    - [math.sqrt x] raises [ValueError] on a negative argument;
    - [x ** 0.5] on a negative float yields a complex number, on which the
      [round] that always follows raises [TypeError];
    - in binary64, [ceil] and [round] raise [ValueError] on NaN and
      [OverflowError] on an infinity;
    - the two explicit [raise ValueError(...)] statements.
    In exact arithmetic, division by a non-zero literal ([/ 2], [/ 4],
    [/ 8], [/ 16]) cannot raise and is written with the plain division of
    [R].

    Text.  The digits Python prints for a number and the messages of its own
    exceptions are parameters of the model ([Section Rendering]); the keys of
    the dictionaries and the layout of the level strings are as in the
    source. *)

From Stdlib Require Import Floats.
From Stdlib Require Import Reals Lra Lia ZArith List String Ascii.
From Stdlib Require Import DecimalString.
Import ListNotations.

#[local] Open Scope R_scope.
#[local] Set Warnings "-inexact-float".

(** * The program in exact arithmetic *)

(** ** The interpreter: exceptions and numeric built-ins *)

Module Py.

(** The exceptions the program can meet.  The two [ValueError]s the source
    raises itself keep the numbers their messages are built from. *)
Inductive exn : Type :=
| ZeroDivisionError
| MathDomainError           (* ValueError of math.sqrt *)
| TypeError                 (* round of a complex *)
| InvalidPlateDimensions    (* ValueError, line 85 *)
| BearingStressExceeds      (* ValueError, line 106 *)
    (bearing_stress lvl_bearing : R).

Inductive result (A : Type) : Type :=
| Return (a : A)
| Raise (e : exn).

Arguments Return {A} a.
Arguments Raise {A} e.

Definition bind {A B : Type} (m : result A) (k : A -> result B) : result B :=
  match m with
  | Return a => k a
  | Raise e => Raise e
  end.

(** [x / y] *)
Definition div (x y : R) : result R :=
  if Req_dec_T y 0 then Raise ZeroDivisionError else Return (x / y).

(** [math.sqrt(x)] *)
Definition math_sqrt (x : R) : result R :=
  if Rlt_dec x 0 then Raise MathDomainError else Return (sqrt x).

(** [x ** 0.5], always followed in the source by a multiplication and a
    [round], which fails on the complex value a negative [x] gives. *)
Definition pow_half (x : R) : result R :=
  if Rlt_dec x 0 then Raise TypeError else Return (sqrt x).

(** [max(a, b)]: the first argument unless the second is greater. *)
Definition max (a b : R) : R :=
  if Rgt_dec b a then b else a.

(** [math.ceil(x)], an integer. *)
Definition ceil (x : R) : Z := Zceil x.

(** [round(x)], an integer: to nearest, ties to the even neighbour. *)
Definition round (x : R) : Z :=
  let f := Zfloor x in
  let d := x - IZR f in
  if Rlt_dec d (1 / 2) then f
  else if Rgt_dec d (1 / 2) then (f + 1)%Z
  else if Z.even f then f else (f + 1)%Z.

End Py.

Import Py.

Notation "x <- m ;; k" := (Py.bind m (fun x => k))
  (at level 61, m at next level, right associativity).

(** ** select_hss_size *)

(** One row of [hss_sizes]: designation, area, section modulus, width,
    weight.  The section modulus, [S] in the source, is [S_x] here ([S] is
    the successor of [nat]). *)
Definition section : Type := (string * R * R * R * R)%type.

Definition hss_sizes : list section :=
  [ ("HSS6x6x3/16"%string,  4.30, 10.3,  6.0, 12.5);
    ("HSS8x8x3/16"%string,  5.75, 17.4,  8.0, 16.8);
    ("HSS8x8x1/4"%string,   7.56, 22.4,  8.0, 22.0);
    ("HSS10x10x1/4"%string, 9.52, 35.2, 10.0, 27.5);
    ("HSS12x12x1/4"%string, 11.5, 50.8, 12.0, 33.0) ].

Definition E : R := 29000.
Definition K : R := 1.0.
Definition r_factor : R := 0.4.

(** What [select_hss_size] returns on success: [(hss, A, S, B_hss)].  The
    failure tuple [(None, None, None, None)] is [None]; see [as_tuple]. *)
Definition selection : Type := (string * R * R * R)%type.

(** The [for] loop of [select_hss_size] over the rows still to visit. *)
Fixpoint select_loop (P_total L beam_load beam_width F_y phi_c : R)
    (sizes : list section) : result (option selection) :=
  match sizes with
  | [] => Return None
  | (hss, A, S_x, B_hss, _) :: rest =>
      let phi_Pn := phi_c * F_y * A in
      root <- math_sqrt A ;;
      slenderness <- div (K * L) (r_factor * root) ;;
      if Rgt_dec slenderness 200 then
        select_loop P_total L beam_load beam_width F_y phi_c rest
      else
        let e := B_hss / 2 - beam_width / 2 in
        let M_u := beam_load * e in
        let phi_Mn := phi_c * F_y * S_x in
        axial <- div P_total phi_Pn ;;
        bending <- div M_u phi_Mn ;;
        let interaction := axial + bending in
        if Rle_dec interaction 0.9 then Return (Some (hss, A, S_x, B_hss))
        else select_loop P_total L beam_load beam_width F_y phi_c rest
  end.

Definition select_hss_size (P_total L beam_load beam_width F_y phi_c : R)
    : result (option selection) :=
  select_loop P_total L beam_load beam_width F_y phi_c hss_sizes.


(** ** calculate_plates *)

(** The numbers a successful run of [calculate_plates] formats into its
    dictionary. *)
Record plates : Type := Plates {
  B : R;
  N : R;
  t_cap : R;
  bearing_width : R;
  bearing_height : R;
  t_bearing : R;
  bearing_stress : R;
  weld_size : R
}.

(** The body of the [try] block, up to the [return]. *)
Definition plates_body
    (P_beam P_upper B_hss beam_width beam_height beam_offset
     lvl_bearing F_y phi load_factor : R) : result plates :=
  (* LVL bearing area *)
  P_s <- div P_beam load_factor ;;
  A_bearing <- div (P_s * 1000) lvl_bearing ;;
  N <- div A_bearing beam_width ;;
  let N := max N B_hss in
  let N := IZR (ceil (N * 4)) / 4 in
  (* Cap plate width *)
  let B := max (B_hss + 2) (beam_width + 2) in
  (* Cap plate thickness *)
  let d := B_hss in
  let m := (B - 0.95 * d) / 2 in
  let n := (B - 0.8 * beam_width) / 2 in
  let beam_centroid := beam_offset + beam_width / 2 in
  let n_ecc := max (B_hss - (beam_offset + beam_width)) beam_centroid in
  let l := max (max m n) n_ecc in
  let denominator := phi * F_y * B * N in
  if Req_dec_T denominator 0 then Raise InvalidPlateDimensions else
  ratio <- div (2 * (P_beam + P_upper)) denominator ;;
  root <- pow_half ratio ;;
  let t_cap := l * root in
  let t_cap := max (IZR (round (t_cap * 8)) / 8) 0.375 in
  ratio' <- div (2 * (P_beam + P_upper)) denominator ;;
  root' <- pow_half ratio' ;;
  let t_cap := if Rlt_dec t_cap (l * root') then t_cap + 0.125 else t_cap in
  (* Bearing plates *)
  let bearing_width := B_hss in
  let bearing_height := beam_height in
  let t_bearing := 1.0 in
  let bearing_area := bearing_width * t_bearing in
  let phi_Rn := 0.75 * 1.8 * F_y * bearing_area in
  t_bearing <-
    (if Rlt_dec phi_Rn (P_upper / 2) then
       t_bearing <- div (P_upper / 2) (0.75 * 1.8 * F_y * bearing_width) ;;
       let t_bearing := IZR (round (t_bearing * 8)) / 8 in
       required <- div (P_upper / 2) (0.75 * 1.8 * F_y * bearing_width) ;;
       Return (if Rlt_dec t_bearing required then t_bearing + 0.125
               else t_bearing)
     else Return t_bearing) ;;
  (* LVL bearing stress *)
  bearing_stress <- div (P_s * 1000) (beam_width * N) ;;
  if Rgt_dec bearing_stress lvl_bearing then
    Raise (BearingStressExceeds bearing_stress lvl_bearing)
  else
  (* Welds *)
  let weld_size := 3 / 16 in
  let phi_Rn_weld := 0.75 * 0.707 * weld_size * 0.6 * 70 in
  q_cap <- div (P_beam + P_upper) (4 * B_hss) ;;
  q_bearing <- div P_upper (2 * 2 * B_hss) ;;
  let weld_size :=
    if Rgt_dec (max q_cap q_bearing) phi_Rn_weld then
      let weld_size := max q_cap q_bearing / (0.75 * 0.707 * 0.6 * 70) in
      IZR (round (weld_size * 16)) / 16
    else weld_size in
  Return (Plates B N t_cap bearing_width bearing_height t_bearing
                 bearing_stress weld_size).

(** A dictionary with string keys and values, in insertion order. *)
Definition dict : Type := list (string * string).

Definition keys (d : dict) : list string := map fst d.

Section Rendering.

(** How the interpreter prints numbers and its own exceptions is not
    modelled: [fmt k x] stands for [format(x, ".kf")], [str_num x] for
    [str(x)] and [builtin_message e] for [str(e)] of an exception the
    interpreter raised. *)
Variable fmt : nat -> R -> string.
Variable str_num : R -> string.
Variable builtin_message : exn -> string.

(** [str(e)] *)
Definition str_exn (e : exn) : string :=
  match e with
  | InvalidPlateDimensions => "Invalid plate dimensions."
  | BearingStressExceeds bearing_stress lvl_bearing =>
      "Bearing stress " ++ fmt 1 bearing_stress ++ " psi exceeds "
        ++ str_num lvl_bearing ++ " psi."
  | _ => builtin_message e
  end.

(** The dictionary of the [return] statement. *)
Definition plates_dict (p : plates) : dict :=
  [ ("Cap Plate",
      fmt 3 (B p) ++ " x " ++ fmt 3 (N p) ++ " x " ++ fmt 3 (t_cap p)
        ++ " in");
    ("Bearing Plates",
      "2 plates, " ++ fmt 3 (bearing_width p) ++ " x "
        ++ fmt 3 (bearing_height p) ++ " x " ++ fmt 3 (t_bearing p)
        ++ " in");
    ("LVL Bearing Stress", fmt 1 (bearing_stress p) ++ " psi");
    ("Weld Size", fmt 3 (weld_size p) ++ " in") ]%string.

(** [try: ... except Exception as e: return {"Error": str(e)}] *)
Definition calculate_plates
    (P_beam P_upper B_hss beam_width beam_height beam_offset
     lvl_bearing F_y phi load_factor : R) : dict :=
  match plates_body P_beam P_upper B_hss beam_width beam_height
          beam_offset lvl_bearing F_y phi load_factor with
  | Return p => plates_dict p
  | Raise e => [ ("Error"%string, str_exn e) ]
  end.

End Rendering.

(** ** process_column_stack *)

(** One input case: [(post_length, beam_load, beam_width, beam_height)]. *)
Definition case : Type := (R * R * R * R)%type.

Definition beam_load_of (c : case) : R :=
  let '(_, beam_load, _, _) := c in beam_load.

(** The first loop, over [reversed(cases)]: [cumulative_load += beam_load]
    then [total_loads.insert(0, cumulative_load)]. *)
Fixpoint accumulate (reversed_cases : list case) (cumulative_load : R)
    (total_loads : list R) : list R :=
  match reversed_cases with
  | [] => total_loads
  | (_, beam_load, _, _) :: rest =>
      let cumulative_load := cumulative_load + beam_load in
      accumulate rest cumulative_load (cumulative_load :: total_loads)
  end.

Definition total_loads (cases : list case) : list R :=
  accumulate (rev cases) 0 [].

(** [str(i)] for the level counter. *)
Definition str_int (i : nat) : string :=
  NilEmpty.string_of_uint (Nat.to_uint i).

Section Stack.

Variable fmt : nat -> R -> string.
Variable str_num : R -> string.
Variable builtin_message : exn -> string.

Definition level_error (i : nat) : string :=
  "Level " ++ str_int i ++ ": {'Error': 'No suitable HSS size found'}".

(** ['k': 'v'] for one item of the plate dictionary. *)
Definition item (kv : string * string) : string :=
  "'" ++ fst kv ++ "': '" ++ snd kv ++ "'".

Definition level_design (i : nat) (hss : string) (plate_design : dict)
    : string :=
  "Level " ++ str_int i ++ ": {'HSS': '" ++ hss ++ "', "
    ++ String.concat ", " (map item plate_design) ++ "}".

(** The body of the second loop: the string appended to [results] for
    level [i]. *)
Definition process_level (lvl_bearing : R) (i : nat) (c : case)
    (P_total : R) : result string :=
  let '(post_length, beam_load, beam_width, beam_height) := c in
  (* Select HSS *)
  selected <- select_hss_size P_total post_length beam_load beam_width
                46 0.9 ;;
  match selected with
  | None => Return (level_error i)
  | Some (hss, A_hss, S_hss, B_hss) =>
      (* Calculate plates (P_upper = load from all levels above) *)
      let P_upper := P_total - beam_load in
      let plate_design :=
        calculate_plates fmt str_num builtin_message
          beam_load P_upper B_hss beam_width beam_height
          0 lvl_bearing 36 0.9 1.6 in
      Return (level_design i hss plate_design)
  end.

(** The second loop, over [enumerate(zip(cases, total_loads), 1)]. *)
Fixpoint process_levels (lvl_bearing : R) (i : nat)
    (zipped : list (case * R)) (results : list string)
    : result (list string) :=
  match zipped with
  | [] => Return results
  | (c, P_total) :: rest =>
      entry <- process_level lvl_bearing i c P_total ;;
      process_levels lvl_bearing (S i) rest (results ++ [entry])
  end.

Definition process_column_stack (cases : list case) (lvl_bearing : R)
    : result (list string) :=
  process_levels lvl_bearing 1 (combine cases (total_loads cases)) [].

End Stack.

(** ** The quantities the specification names *)

Definition area (s : section) : R :=
  let '(_, A, _, _, _) := s in A.

Definition modulus (s : section) : R :=
  let '(_, _, S_x, _, _) := s in S_x.

Definition width (s : section) : R :=
  let '(_, _, _, B_hss, _) := s in B_hss.

(** The tuple returned for a catalog row. *)
Definition chosen (s : section) : selection :=
  let '(hss, A, S_x, B_hss, _) := s in (hss, A, S_x, B_hss).

(** K*L/(r_factor*sqrt(A)) *)
Definition slenderness (L : R) (s : section) : R :=
  K * L / (r_factor * sqrt (area s)).

(** P_total/(phi_c*F_y*A) + beam_load*(B_hss/2 - beam_width/2)/(phi_c*F_y*S) *)
Definition interaction (P_total beam_load beam_width F_y phi_c : R)
    (s : section) : R :=
  P_total / (phi_c * F_y * area s)
  + beam_load * (width s / 2 - beam_width / 2) / (phi_c * F_y * modulus s).

Definition adequate (P_total L beam_load beam_width F_y phi_c : R)
    (s : section) : Prop :=
  slenderness L s <= 200
  /\ interaction P_total beam_load beam_width F_y phi_c s <= 0.9.

Definition inadequate (P_total L beam_load beam_width F_y phi_c : R)
    (s : section) : Prop :=
  slenderness L s > 200
  \/ interaction P_total beam_load beam_width F_y phi_c s > 0.9.

(** [r] is the first adequate row of [sizes], or nothing when there is
    none. *)
Definition first_adequate (P_total L beam_load beam_width F_y phi_c : R)
    (sizes : list section) (r : option selection) : Prop :=
  match r with
  | Some sel =>
      exists before s after,
        sizes = before ++ s :: after
        /\ sel = chosen s
        /\ adequate P_total L beam_load beam_width F_y phi_c s
        /\ Forall (inadequate P_total L beam_load beam_width F_y phi_c) before
  | None => Forall (inadequate P_total L beam_load beam_width F_y phi_c) sizes
  end.

(** A catalog row on which no operation of the loop body can raise. *)
Definition regular (F_y phi_c : R) (s : section) : Prop :=
  0 < area s /\ phi_c * F_y * area s <> 0 /\ phi_c * F_y * modulus s <> 0.

(** sum(b_1..b_n) of the beam loads of a list of cases. *)
Definition sum_loads (cases : list case) : R :=
  fold_right (fun c acc => beam_load_of c + acc) 0 cases.

(** The totals of every level and the levels above it:
    [sum(b_i..b_n)] for i = 1..n. *)
Fixpoint suffix_sums (cases : list case) : list R :=
  match cases with
  | [] => []
  | c :: rest => sum_loads (c :: rest) :: suffix_sums rest
  end.

(** [x] rounded up to a multiple of [1/k]. *)
Definition round_up (k : Z) (x : R) : R := IZR (Zceil (x * IZR k)) / IZR k.

(** The bearing length before rounding:
    max((P_beam/load_factor)*1000/lvl_bearing/beam_width, B_hss). *)
Definition raw_bearing_length
    (P_beam load_factor lvl_bearing beam_width B_hss : R) : R :=
  Rmax (P_beam / load_factor * 1000 / lvl_bearing / beam_width) B_hss.

(** The cap-plate width max(B_hss+2, beam_width+2). *)
Definition cap_width (B_hss beam_width : R) : R :=
  Rmax (B_hss + 2) (beam_width + 2).

(** The cantilever length l = max(m, n, n_ecc). *)
Definition cantilever (B_hss beam_width beam_offset : R) : R :=
  let B := cap_width B_hss beam_width in
  Rmax (Rmax ((B - 0.95 * B_hss) / 2) ((B - 0.8 * beam_width) / 2))
       (Rmax (B_hss - (beam_offset + beam_width))
             (beam_offset + beam_width / 2)).

(** The raw cap-plate thickness l*sqrt(2*(P_beam+P_upper)/(phi*F_y*B*N)). *)
Definition raw_t_cap
    (P_beam P_upper B_hss beam_width beam_offset F_y phi N : R) : R :=
  cantilever B_hss beam_width beam_offset
  * sqrt (2 * (P_beam + P_upper)
          / (phi * F_y * cap_width B_hss beam_width * N)).

(** The raw bearing-plate thickness (P_upper/2)/(0.75*1.8*F_y*bearing_width). *)
Definition raw_t_bearing (P_upper F_y B_hss : R) : R :=
  (P_upper / 2) / (0.75 * 1.8 * F_y * B_hss).

(** The weld demand max(q_cap, q_bearing). *)
Definition weld_demand (P_beam P_upper B_hss : R) : R :=
  Rmax ((P_beam + P_upper) / (4 * B_hss)) (P_upper / (2 * 2 * B_hss)).

(** The raw weld size demand/(0.75*0.707*0.6*70). *)
Definition raw_weld_size (P_beam P_upper B_hss : R) : R :=
  weld_demand P_beam P_upper B_hss / (0.75 * 0.707 * 0.6 * 70).

Definition error_keys : list string := [ "Error"%string ].

Definition design_keys : list string :=
  [ "Cap Plate"; "Bearing Plates"; "LVL Bearing Stress"; "Weld Size" ]%string.

(** *** The values of a successful run of [plates_body], as formulas *)

(** N: the raw bearing length rounded up to a quarter inch. *)
Definition bearing_length
    (P_beam load_factor lvl_bearing beam_width B_hss : R) : R :=
  round_up 4
    (raw_bearing_length P_beam load_factor lvl_bearing beam_width B_hss).

(** Lines 87-89: round to the nearest 1/8, at least 3/8, one more 1/8 when
    below the raw value. *)
Definition t_cap_of (raw : R) : R :=
  let t := Rmax (IZR (round (raw * 8)) / 8) 0.375 in
  if Rlt_dec t raw then t + 0.125 else t.

(** Lines 94-101. *)
Definition t_bearing_of (P_upper F_y B_hss : R) : R :=
  if Rlt_dec (0.75 * 1.8 * F_y * (B_hss * 1.0)) (P_upper / 2) then
    let raw := raw_t_bearing P_upper F_y B_hss in
    let t := IZR (round (raw * 8)) / 8 in
    if Rlt_dec t raw then t + 0.125 else t
  else 1.0.

(** Line 104. *)
Definition bearing_stress_of (P_beam load_factor beam_width N : R) : R :=
  P_beam / load_factor * 1000 / (beam_width * N).

(** The capacity of the 3/16-in weld, line 110. *)
Definition phi_Rn_weld : R := 0.75 * 0.707 * (3 / 16) * 0.6 * 70.

(** Lines 109-115. *)
Definition weld_size_of (P_beam P_upper B_hss : R) : R :=
  if Rgt_dec (weld_demand P_beam P_upper B_hss) phi_Rn_weld then
    IZR (round (raw_weld_size P_beam P_upper B_hss * 16)) / 16
  else 3 / 16.

Definition plates_of
    (P_beam P_upper B_hss beam_width beam_height beam_offset
     lvl_bearing F_y phi load_factor : R) : plates :=
  let N := bearing_length P_beam load_factor lvl_bearing beam_width B_hss in
  Plates (cap_width B_hss beam_width) N
    (t_cap_of (raw_t_cap P_beam P_upper B_hss beam_width beam_offset F_y phi N))
    B_hss beam_height
    (t_bearing_of P_upper F_y B_hss)
    (bearing_stress_of P_beam load_factor beam_width N)
    (weld_size_of P_beam P_upper B_hss).

(** The conditions under which no statement of the [try] block raises. *)
Definition plates_ok
    (P_beam P_upper B_hss beam_width beam_height beam_offset
     lvl_bearing F_y phi load_factor : R) : Prop :=
  let N := bearing_length P_beam load_factor lvl_bearing beam_width B_hss in
  let denominator := phi * F_y * cap_width B_hss beam_width * N in
  load_factor <> 0 /\ lvl_bearing <> 0 /\ beam_width <> 0
  /\ denominator <> 0
  /\ 0 <= 2 * (P_beam + P_upper) / denominator
  /\ B_hss <> 0
  /\ bearing_stress_of P_beam load_factor beam_width N <= lvl_bearing.

(** *** The example of the source file *)

(** The [cases] of the main block of the source file. *)
Definition example_cases : list case :=
  [ (120, 56, 3, 12); (96, 40, 3.5, 14); (144, 20, 2.5, 10);
    (144, 0.1, 2.5, 10) ].


(** ** The main block *)

Section Main.

Variable fmt : nat -> R -> string.
Variable str_num : R -> string.
Variable builtin_message : exn -> string.

(** [for result in results: print(result); print()]: the lines written to
    the standard output. *)
Fixpoint print_results (results : list string) : list string :=
  match results with
  | [] => []
  | result :: rest => result :: EmptyString :: print_results rest
  end.

(** The block under [if __name__ == "__main__"], with the default
    [lvl_bearing = 500]: the lines it prints, or the exception it dies of. *)
Definition main : result (list string) :=
  results <- process_column_stack fmt str_num builtin_message
               example_cases 500 ;;
  Return (print_results results).

End Main.

Definition beam_width_of (c : case) : R :=
  let '(_, _, beam_width, _) := c in beam_width.

Definition selected_area (sel : selection) : R :=
  let '(_, A, _, _) := sel in A.

(** * The program on binary64 floats

    [select_hss_size] and [calculate_plates] once more, now on the floats
    of the machine: every operator of the source is the IEEE 754 binary64
    operation of the kernel ([PrimFloat]), every comparison the float
    comparison, and the constants are the floats their decimal text
    denotes.  Arguments are floats; a Python int that a float holds
    exactly (56, 120, 500, ...) behaves as that float in every expression
    of the two functions. *)

Module Binary64.

#[local] Open Scope float_scope.

(** The exceptions the two functions can meet. *)
Inductive exn : Type :=
| ZeroDivisionError
| MathDomainError           (* ValueError of math.sqrt *)
| TypeError                 (* round of a complex *)
| ValueError                (* ceil or round of NaN *)
| OverflowError             (* ceil or round of an infinity *)
| InvalidPlateDimensions    (* ValueError, line 85 *)
| BearingStressExceeds      (* ValueError, line 106 *)
    (bearing_stress lvl_bearing : float).

Inductive result (A : Type) : Type :=
| Return (a : A)
| Raise (e : exn).

Arguments Return {A} a.
Arguments Raise {A} e.

Definition bind {A B : Type} (m : result A) (k : A -> result B) : result B :=
  match m with
  | Return a => k a
  | Raise e => Raise e
  end.

Declare Scope binary64_scope.

Notation "x <- m ;; k" := (bind m (fun x => k))
  (at level 61, m at next level, right associativity) : binary64_scope.

#[local] Open Scope binary64_scope.

(** [x / y]: a zero divisor of either sign raises; infinities and NaN do
    not. *)
Definition div (x y : float) : result float :=
  if y =? 0 then Raise ZeroDivisionError else Return (x / y).

(** [math.sqrt(x)] *)
Definition math_sqrt (x : float) : result float :=
  if x <? 0 then Raise MathDomainError else Return (PrimFloat.sqrt x).

(** [max(a, b)]: the first argument unless the second is greater. *)
Definition max (a b : float) : float :=
  if a <? b then b else a.

(** A finite float as [a * 2 ^ e]; what [int(x)] raises otherwise. *)
Definition mantissa_exponent (x : float) : result (Z * Z) :=
  match Prim2SF x with
  | S754_nan => Raise ValueError
  | S754_infinity _ => Raise OverflowError
  | S754_zero _ => Return (0, 0)%Z
  | S754_finite s m e => Return (cond_Zopp s (Z.pos m), e)
  end.

(** [math.ceil(x)], an integer. *)
Definition ceil (x : float) : result Z :=
  ae <- mantissa_exponent x ;;
  let '(a, e) := ae in
  Return (if 0 <=? e then a * 2 ^ e else - (- a / 2 ^ (- e)))%Z.

(** [round(x)], an integer: to nearest, ties to the even neighbour. *)
Definition round (x : float) : result Z :=
  ae <- mantissa_exponent x ;;
  let '(a, e) := ae in
  Return (if 0 <=? e then a * 2 ^ e
          else
            let f := a / 2 ^ (- e) in
            let d := a mod 2 ^ (- e) in
            if 2 * d <? 2 ^ (- e) then f
            else if 2 ^ (- e) <? 2 * d then f + 1
            else if Z.even f then f else f + 1)%Z.

(** [float(n)]: the nearest float, ties to even. *)
Definition float_of_int (n : Z) : float :=
  SF2Prim (binary_normalize prec emax n 0 false).

(** [n / d] for two ints, where [n] comes from [ceil] or [round] (a float
    holds it exactly) and [d] is 4, 8 or 16: the quotient of the two
    floats. *)
Definition int_div (n d : Z) : float :=
  float_of_int n / float_of_int d.

Section Libm.

(** [pow] of the C library, which [x ** 0.5] calls on a positive finite
    [x].  Its last bit is not fixed by the language, so it is a parameter;
    a correctly rounded one is [fun x _ => PrimFloat.sqrt x]. *)
Variable pow : float -> float -> float.

(** [x ** 0.5].  A negative finite [x] yields a complex number, on which
    the [round] that always follows in the source raises [TypeError]. *)
Definition pow_half (x : float) : result float :=
  match Prim2SF x with
  | S754_nan => Return x
  | S754_infinity _ => Return infinity
  | S754_zero _ => Return 0
  | S754_finite true _ _ => Raise TypeError
  | S754_finite false _ _ => Return (pow x 0.5)
  end.

End Libm.

(** ** select_hss_size *)

Definition section : Type := (string * float * float * float * float)%type.

Definition hss_sizes : list section :=
  [ ("HSS6x6x3/16"%string, 4.30, 10.3, 6.0, 12.5);
    ("HSS8x8x3/16"%string, 5.75, 17.4, 8.0, 16.8);
    ("HSS8x8x1/4"%string, 7.56, 22.4, 8.0, 22.0);
    ("HSS10x10x1/4"%string, 9.52, 35.2, 10.0, 27.5);
    ("HSS12x12x1/4"%string, 11.5, 50.8, 12.0, 33.0) ].

Definition E : float := 29000.
Definition K : float := 1.0.
Definition r_factor : float := 0.4.

Definition selection : Type := (string * float * float * float)%type.

(** The [for] loop of lines 30-41, [None] standing for the none-tuple of
    line 43. *)
Fixpoint select_loop (P_total L beam_load beam_width F_y phi_c : float)
    (sizes : list section) : result (option selection) :=
  match sizes with
  | [] => Return None
  | (hss, A, S_x, B_hss, _) :: rest =>
      let phi_Pn := phi_c * F_y * A in
      root <- math_sqrt A ;;
      slenderness <- div (K * L) (r_factor * root) ;;
      if 200 <? slenderness then
        select_loop P_total L beam_load beam_width F_y phi_c rest
      else
        let e := B_hss / 2 - beam_width / 2 in
        let M_u := beam_load * e in
        let phi_Mn := phi_c * F_y * S_x in
        axial <- div P_total phi_Pn ;;
        bending <- div M_u phi_Mn ;;
        let interaction := axial + bending in
        if interaction <=? 0.9 then Return (Some (hss, A, S_x, B_hss))
        else select_loop P_total L beam_load beam_width F_y phi_c rest
  end.

Definition select_hss_size (P_total L beam_load beam_width F_y phi_c : float)
  : result (option selection) :=
  select_loop P_total L beam_load beam_width F_y phi_c hss_sizes.

(** ** calculate_plates *)

Record plates : Type := Plates {
  B : float;
  N : float;
  t_cap : float;
  bearing_width : float;
  bearing_height : float;
  t_bearing : float;
  bearing_stress : float;
  weld_size : float
}.

Section Plates.

Variable pow : float -> float -> float.

(** The body of the [try] block, up to the [return]. *)
Definition plates_body
    (P_beam P_upper B_hss beam_width beam_height beam_offset
     lvl_bearing F_y phi load_factor : float) : result plates :=
  (* LVL bearing area *)
  P_s <- div P_beam load_factor ;;
  A_bearing <- div (P_s * 1000) lvl_bearing ;;
  N <- div A_bearing beam_width ;;
  let N := max N B_hss in
  quarters <- ceil (N * 4) ;;
  let N := int_div quarters 4 in
  (* Cap plate width *)
  let B := max (B_hss + 2) (beam_width + 2) in
  (* Cap plate thickness *)
  let d := B_hss in
  let m := (B - 0.95 * d) / 2 in
  let n := (B - 0.8 * beam_width) / 2 in
  let beam_centroid := beam_offset + beam_width / 2 in
  let n_ecc := max (B_hss - (beam_offset + beam_width)) beam_centroid in
  let l := max (max m n) n_ecc in
  let denominator := phi * F_y * B * N in
  if denominator =? 0 then Raise InvalidPlateDimensions else
  root <- pow_half pow ((2 * (P_beam + P_upper)) / denominator) ;;
  let t_cap := l * root in
  eighths <- round (t_cap * 8) ;;
  let t_cap := max (int_div eighths 8) 0.375 in
  root' <- pow_half pow ((2 * (P_beam + P_upper)) / denominator) ;;
  let t_cap := if t_cap <? l * root' then t_cap + 0.125 else t_cap in
  (* Bearing plates *)
  let bearing_width := B_hss in
  let bearing_height := beam_height in
  let t_bearing := 1.0 in
  let bearing_area := bearing_width * t_bearing in
  let phi_Rn := 0.75 * 1.8 * F_y * bearing_area in
  t_bearing <-
    (if phi_Rn <? P_upper / 2 then
       t_bearing <- div (P_upper / 2) (0.75 * 1.8 * F_y * bearing_width) ;;
       eighths <- round (t_bearing * 8) ;;
       let t_bearing := int_div eighths 8 in
       required <- div (P_upper / 2) (0.75 * 1.8 * F_y * bearing_width) ;;
       Return (if t_bearing <? required then t_bearing + 0.125
               else t_bearing)
     else Return t_bearing) ;;
  (* LVL bearing stress *)
  bearing_stress <- div (P_s * 1000) (beam_width * N) ;;
  if lvl_bearing <? bearing_stress then
    Raise (BearingStressExceeds bearing_stress lvl_bearing)
  else
  (* Welds *)
  let weld_size := int_div 3 16 in
  let phi_Rn_weld := 0.75 * 0.707 * weld_size * 0.6 * 70 in
  q_cap <- div (P_beam + P_upper) (4 * B_hss) ;;
  q_bearing <- div P_upper (2 * 2 * B_hss) ;;
  weld_size <-
    (if phi_Rn_weld <? max q_cap q_bearing then
       let weld_size := max q_cap q_bearing / (0.75 * 0.707 * 0.6 * 70) in
       sixteenths <- round (weld_size * 16) ;;
       Return (int_div sixteenths 16)
     else Return weld_size) ;;
  Return (Plates B N t_cap bearing_width bearing_height t_bearing
                 bearing_stress weld_size).

(** How the interpreter prints floats and its own exceptions is not
    modelled, as in [Section Rendering] above. *)
Variable fmt : nat -> float -> string.
Variable str_num : float -> string.
Variable builtin_message : exn -> string.

(** [str(e)] *)
Definition str_exn (e : exn) : string :=
  match e with
  | InvalidPlateDimensions => "Invalid plate dimensions."
  | BearingStressExceeds bearing_stress lvl_bearing =>
      "Bearing stress " ++ fmt 1 bearing_stress ++ " psi exceeds "
        ++ str_num lvl_bearing ++ " psi."
  | _ => builtin_message e
  end.

(** The dictionary of the [return] statement. *)
Definition plates_dict (p : plates) : dict :=
  [ ("Cap Plate",
      fmt 3 (B p) ++ " x " ++ fmt 3 (N p) ++ " x " ++ fmt 3 (t_cap p)
        ++ " in");
    ("Bearing Plates",
      "2 plates, " ++ fmt 3 (bearing_width p) ++ " x "
        ++ fmt 3 (bearing_height p) ++ " x " ++ fmt 3 (t_bearing p)
        ++ " in");
    ("LVL Bearing Stress", fmt 1 (bearing_stress p) ++ " psi");
    ("Weld Size", fmt 3 (weld_size p) ++ " in") ]%string.

(** [try: ... except Exception as e: return {"Error": str(e)}] *)
Definition calculate_plates
    (P_beam P_upper B_hss beam_width beam_height beam_offset
     lvl_bearing F_y phi load_factor : float) : dict :=
  match plates_body P_beam P_upper B_hss beam_width beam_height
          beam_offset lvl_bearing F_y phi load_factor with
  | Return p => plates_dict p
  | Raise e => [ ("Error"%string, str_exn e) ]
  end.

End Plates.

(** ** The quantities the specification names, as the program computes
    them *)

Definition area (s : section) : float :=
  let '(_, A, _, _, _) := s in A.

Definition modulus (s : section) : float :=
  let '(_, _, S_x, _, _) := s in S_x.

Definition width (s : section) : float :=
  let '(_, _, _, B_hss, _) := s in B_hss.

Definition chosen (s : section) : selection :=
  let '(hss, A, S_x, B_hss, _) := s in (hss, A, S_x, B_hss).

(** K*L/(r_factor*sqrt(A)), line 32. *)
Definition slenderness (L : float) (s : section) : float :=
  K * L / (r_factor * PrimFloat.sqrt (area s)).

(** phi_c*F_y*A and phi_c*F_y*S, lines 31 and 38. *)
Definition phi_Pn (F_y phi_c : float) (s : section) : float :=
  phi_c * F_y * area s.

Definition phi_Mn (F_y phi_c : float) (s : section) : float :=
  phi_c * F_y * modulus s.

(** P_total/phi_Pn + M_u/phi_Mn, line 39. *)
Definition interaction (P_total beam_load beam_width F_y phi_c : float)
    (s : section) : float :=
  P_total / phi_Pn F_y phi_c s
  + beam_load * (width s / 2 - beam_width / 2) / phi_Mn F_y phi_c s.

(** The row passes the test of line 33: its slenderness is not above 200
    (a NaN is not). *)
Definition slender_enough (L : float) (s : section) : Prop :=
  (200 <? slenderness L s) = false.

(** One of the two divisions of line 39 is by zero. *)
Definition divides_by_zero (F_y phi_c : float) (s : section) : Prop :=
  (phi_Pn F_y phi_c s =? 0) = true \/ (phi_Mn F_y phi_c s =? 0) = true.

Definition divisors_nonzero (F_y phi_c : float) (s : section) : Prop :=
  (phi_Pn F_y phi_c s =? 0) = false /\ (phi_Mn F_y phi_c s =? 0) = false.

(** The row is returned when the loop reaches it. *)
Definition adequate (P_total L beam_load beam_width F_y phi_c : float)
    (s : section) : Prop :=
  slender_enough L s /\ divisors_nonzero F_y phi_c s
  /\ (interaction P_total beam_load beam_width F_y phi_c s <=? 0.9) = true.

(** The loop goes past the row: slenderness above 200, or an interaction
    ratio that is not at most 0.9. *)
Definition inadequate (P_total L beam_load beam_width F_y phi_c : float)
    (s : section) : Prop :=
  (200 <? slenderness L s) = true
  \/ (slender_enough L s /\ divisors_nonzero F_y phi_c s
      /\ (interaction P_total beam_load beam_width F_y phi_c s <=? 0.9)
         = false).

(** [r] is the first adequate row of the catalog, [None] when there is
    none. *)
Definition first_adequate (P_total L beam_load beam_width F_y phi_c : float)
    (r : option selection) : Prop :=
  match r with
  | Some sel =>
      exists pre s post,
        hss_sizes = pre ++ s :: post /\ chosen s = sel
        /\ Forall (inadequate P_total L beam_load beam_width F_y phi_c) pre
        /\ adequate P_total L beam_load beam_width F_y phi_c s
  | None =>
      Forall (inadequate P_total L beam_load beam_width F_y phi_c) hss_sizes
  end.

(** The loop reaches a row that passes the slenderness test and divides by
    zero there. *)
Definition reaches_zero_divisor
    (P_total L beam_load beam_width F_y phi_c : float) : Prop :=
  exists pre s post,
    hss_sizes = pre ++ s :: post
    /\ Forall (inadequate P_total L beam_load beam_width F_y phi_c) pre
    /\ slender_enough L s /\ divides_by_zero F_y phi_c s.

(** The square root of the row's area is taken without error and its
    product with r_factor is not zero. *)
Definition row_regular (s : section) : Prop :=
  math_sqrt (area s) = Return (PrimFloat.sqrt (area s))
  /\ (r_factor * PrimFloat.sqrt (area s) =? 0) = false.

(** What the loop of lines 30-41 does on the rows [sizes]: it returns the
    first adequate row, or nothing when every row is inadequate, or raises
    at a row that passes the slenderness test and divides by zero. *)
Definition scan_outcome (P_total L beam_load beam_width F_y phi_c : float)
    (sizes : list section) (r : result (option selection)) : Prop :=
  match r with
  | Return (Some sel) =>
      exists pre s post,
        sizes = pre ++ s :: post /\ chosen s = sel
        /\ Forall (inadequate P_total L beam_load beam_width F_y phi_c) pre
        /\ adequate P_total L beam_load beam_width F_y phi_c s
  | Return None =>
      Forall (inadequate P_total L beam_load beam_width F_y phi_c) sizes
  | Raise e =>
      e = ZeroDivisionError
      /\ exists pre s post,
           sizes = pre ++ s :: post
           /\ Forall (inadequate P_total L beam_load beam_width F_y phi_c)
                pre
           /\ slender_enough L s /\ divides_by_zero F_y phi_c s
  end.

(** max((P_beam/load_factor)*1000/lvl_bearing/beam_width, B_hss),
    lines 66-69. *)
Definition raw_bearing_length
    (P_beam load_factor lvl_bearing beam_width B_hss : float) : float :=
  max (P_beam / load_factor * 1000 / lvl_bearing / beam_width) B_hss.

(** N, line 70. *)
Definition bearing_length
    (P_beam load_factor lvl_bearing beam_width B_hss : float)
  : result float :=
  quarters <-
    ceil (raw_bearing_length P_beam load_factor lvl_bearing beam_width B_hss
          * 4) ;;
  Return (int_div quarters 4).

(** (P_beam/load_factor)*1000/(beam_width*N), line 104. *)
Definition bearing_stress_of (P_beam load_factor beam_width N : float)
  : float :=
  P_beam / load_factor * 1000 / (beam_width * N).

(** max(B_hss+2, beam_width+2), line 73. *)
Definition cap_width (B_hss beam_width : float) : float :=
  max (B_hss + 2) (beam_width + 2).

(** l = max(m, n, n_ecc), lines 74-80. *)
Definition cantilever (B_hss beam_width beam_offset : float) : float :=
  let B := cap_width B_hss beam_width in
  max (max ((B - 0.95 * B_hss) / 2) ((B - 0.8 * beam_width) / 2))
      (max (B_hss - (beam_offset + beam_width))
           (beam_offset + beam_width / 2)).

(** 2*(P_beam+P_upper)/(phi*F_y*B*N), the argument of the power of
    lines 86 and 88. *)
Definition cap_ratio (P_beam P_upper B_hss beam_width F_y phi N : float)
  : float :=
  2 * (P_beam + P_upper) / (phi * F_y * cap_width B_hss beam_width * N).

(** ** The value of a float *)

Definition finite_sf (x : spec_float) : bool :=
  match x with
  | S754_zero _ | S754_finite _ _ _ => true
  | _ => false
  end.

(** Neither an infinity nor NaN. *)
Definition is_finite (x : float) : bool := finite_sf (Prim2SF x).

(** The real number a finite float denotes (0 for the others). *)
Definition B2R (x : float) : R :=
  match Prim2SF x with
  | S754_finite s m e => (IZR (cond_Zopp s (Z.pos m)) * powerRZ 2 e)%R
  | _ => 0%R
  end.

(** The same number in units of 2^-1074, the smallest positive float: an
    integer. *)
Definition scaled_sf (x : spec_float) : Z :=
  match x with
  | S754_finite s m e => cond_Zopp s (Z.pos m * 2 ^ (e + 1074))%Z
  | _ => 0%Z
  end.

Definition scaled (x : float) : Z := scaled_sf (Prim2SF x).

Definition ulp_min : R := IZR (2 ^ 1074).

(** The integers a float holds exactly: at most 53 significant bits. *)
Definition float_int (n : Z) : Prop :=
  exists g : Z,
    (0 <= g <= 971 /\ (2 ^ g | n) /\ Z.abs n < 2 ^ (53 + g))%Z.

(** 2^k as the format stores it. *)
Definition pow2_sf (k : Z) : spec_float :=
  S754_finite false 4503599627370496 (k - 52).

Definition exact_record (m : Z) : shr_record :=
  {| shr_m := m; shr_r := false; shr_s := false |}.

End Binary64.

(** ** The interpreter model: basic facts *)

Lemma max_Rmax (a b : R) : Py.max a b = Rmax a b.
Proof.
  unfold Py.max, Rmax.
  destruct (Rgt_dec b a), (Rle_dec a b); lra.
Qed.

Lemma div_Return (x y : R) : y <> 0 -> div x y = Return (x / y).
Proof.
  intros Hy. unfold div.
  destruct (Req_dec_T y 0); [contradiction | reflexivity].
Qed.


Lemma div_inv (x y q : R) : div x y = Return q -> y <> 0 /\ q = x / y.
Proof.
  unfold div. destruct (Req_dec_T y 0); intros H; [discriminate |].
  injection H as <-. split; [assumption | reflexivity].
Qed.

Lemma math_sqrt_Return (x : R) : 0 <= x -> math_sqrt x = Return (sqrt x).
Proof.
  intros Hx. unfold math_sqrt. destruct (Rlt_dec x 0); [lra | reflexivity].
Qed.

Lemma pow_half_Return (x : R) : 0 <= x -> pow_half x = Return (sqrt x).
Proof.
  intros Hx. unfold pow_half. destruct (Rlt_dec x 0); [lra | reflexivity].
Qed.

Lemma pow_half_inv (x q : R) : pow_half x = Return q -> 0 <= x /\ q = sqrt x.
Proof.
  unfold pow_half. destruct (Rlt_dec x 0); intros H; [discriminate |].
  injection H as <-. split; [lra | reflexivity].
Qed.

(** [round] is within a half of its argument. *)
Lemma round_bound (x : R) :
  IZR (round x) - 1 / 2 <= x <= IZR (round x) + 1 / 2.
Proof.
  unfold round. pose proof (Zfloor_bound x) as Hf.
  destruct (Rlt_dec _ _); [lra |].
  destruct (Rgt_dec _ _); [rewrite plus_IZR; lra |].
  destruct (Z.even _); [lra | rewrite plus_IZR; lra].
Qed.

(** Strictly inside a half of an integer, [round] gives that integer. *)
Lemma round_eq (z : Z) (x : R) :
  IZR z - 1 / 2 < x < IZR z + 1 / 2 -> round x = z.
Proof.
  intros Hx. pose proof (round_bound x) as Hr.
  assert (H1 : (round x < z + 1)%Z) by (apply lt_IZR; rewrite plus_IZR; lra).
  assert (H2 : (z < round x + 1)%Z) by (apply lt_IZR; rewrite plus_IZR; lra).
  lia.
Qed.

(** Rounding to the nearest multiple of 1/k and stepping up by 1/k when the
    result falls short is rounding up. *)
Lemma round_then_bump (x : R) :
  x <= IZR (round x) /\ round x = Zceil x
  \/ IZR (round x) < x /\ (round x + 1)%Z = Zceil x.
Proof.
  pose proof (round_bound x) as Hr.
  destruct (Rle_dec x (IZR (round x))) as [Hle | Hgt].
  - left. split; [assumption |]. symmetry. apply Zceil_eq. lra.
  - right. split; [lra |]. symmetry. apply Zceil_eq. rewrite plus_IZR. lra.
Qed.

Lemma div_le_iff (x y c : R) : 0 < y -> x / y <= c <-> x <= c * y.
Proof.
  intros Hy. split; intros H.
  - replace x with (x / y * y) by (field; lra).
    now apply Rmult_le_compat_r; [lra |].
  - apply (Rmult_le_reg_r y); [assumption |].
    replace (x / y * y) with x by (field; lra). assumption.
Qed.

Lemma lt_div_iff (x y c : R) : 0 < y -> c < x / y <-> c * y < x.
Proof.
  intros Hy. split; intros H.
  - replace x with (x / y * y) by (field; lra). now apply Rmult_lt_compat_r.
  - apply (Rmult_lt_reg_r y); [assumption |].
    replace (x / y * y) with x by (field; lra). assumption.
Qed.

Lemma sqrt_lower (a x : R) : 0 <= a -> a * a <= x -> a <= sqrt x.
Proof.
  intros Ha Hx. rewrite <- (sqrt_square a Ha). apply sqrt_le_1_alt. exact Hx.
Qed.

Lemma sqrt_upper (a x : R) : 0 <= a -> x <= a * a -> sqrt x <= a.
Proof.
  intros Ha Hx. rewrite <- (sqrt_square a Ha). apply sqrt_le_1_alt. exact Hx.
Qed.

Lemma round_up_bound (k : Z) (x : R) :
  (0 < k)%Z -> x <= round_up k x < x + 1 / IZR k.
Proof.
  intros Hk. unfold round_up.
  assert (HkR : 0 < IZR k) by now apply IZR_lt.
  pose proof (Zceil_bound (x * IZR k)) as Hc.
  split.
  - apply (Rmult_le_reg_r (IZR k)); [assumption |].
    replace (IZR (Zceil (x * IZR k)) / IZR k * IZR k)
      with (IZR (Zceil (x * IZR k))) by (field; lra).
    lra.
  - apply (Rmult_lt_reg_r (IZR k)); [assumption |].
    replace (IZR (Zceil (x * IZR k)) / IZR k * IZR k)
      with (IZR (Zceil (x * IZR k))) by (field; lra).
    replace ((x + 1 / IZR k) * IZR k) with (x * IZR k + 1) by (field; lra).
    lra.
Qed.

Lemma round_up_eq (k z : Z) (x : R) :
  IZR z - 1 < x * IZR k <= IZR z -> round_up k x = IZR z / IZR k.
Proof.
  intros Hx. unfold round_up. now rewrite (Zceil_eq z).
Qed.

Lemma if_Rlt_true {A : Type} (x y : R) (a b : A) :
  x < y -> (if Rlt_dec x y then a else b) = a.
Proof. intros H. destruct (Rlt_dec x y); [reflexivity | contradiction]. Qed.

Lemma if_Rlt_false {A : Type} (x y : R) (a b : A) :
  y <= x -> (if Rlt_dec x y then a else b) = b.
Proof. intros H. destruct (Rlt_dec x y); [lra | reflexivity]. Qed.

Lemma if_Rgt_true {A : Type} (x y : R) (a b : A) :
  x > y -> (if Rgt_dec x y then a else b) = a.
Proof. intros H. destruct (Rgt_dec x y); [reflexivity | contradiction]. Qed.

Lemma if_Rgt_false {A : Type} (x y : R) (a b : A) :
  x <= y -> (if Rgt_dec x y then a else b) = b.
Proof. intros H. destruct (Rgt_dec x y); [lra | reflexivity]. Qed.

Lemma if_Rle_true {A : Type} (x y : R) (a b : A) :
  x <= y -> (if Rle_dec x y then a else b) = a.
Proof. intros H. destruct (Rle_dec x y); [reflexivity | contradiction]. Qed.

Ltac step_div H :=
  match type of H with
  | context [div ?x ?y] =>
      let q := fresh "q" in
      let E := fresh "E" in
      let Hnz := fresh "Hnz" in
      destruct (div x y) as [q |] eqn:E; cbn [bind] in H; [| discriminate H];
      apply div_inv in E as [Hnz ->]
  end.

Ltac step_pow H :=
  match type of H with
  | context [pow_half ?x] =>
      let q := fresh "q" in
      let E := fresh "E" in
      let Hpos := fresh "Hpos" in
      destruct (pow_half x) as [q |] eqn:E; cbn [bind] in H; [| discriminate H];
      apply pow_half_inv in E as [Hpos ->]
  end.

Ltac eval_Rmax :=
  repeat match goal with
  | |- context [Rmax ?a ?b] =>
      first [ rewrite (Rmax_left a b) by lra | rewrite (Rmax_right a b) by lra ]
  end.

(** ** select_hss_size: the catalog scan *)

Section Scan.

Variables P_total L beam_load beam_width F_y phi_c : R.

Lemma first_adequate_skip (s : section) (sizes : list section)
    (r : option selection) :
  inadequate P_total L beam_load beam_width F_y phi_c s ->
  first_adequate P_total L beam_load beam_width F_y phi_c sizes r ->
  first_adequate P_total L beam_load beam_width F_y phi_c (s :: sizes) r.
Proof.
  intros Hs. destruct r as [sel |]; simpl.
  - intros (before & s' & after & -> & Hsel & Had & Hbefore).
    exists (s :: before), s', after.
    split; [reflexivity |]. split; [assumption |]. split; [assumption |].
    now constructor.
  - intros Hall. now constructor.
Qed.

(** Whatever the loop returns is the first adequate row. *)
Lemma select_loop_sound (sizes : list section) (r : option selection) :
  Forall (fun s => 0 < area s) sizes ->
  select_loop P_total L beam_load beam_width F_y phi_c sizes = Return r ->
  first_adequate P_total L beam_load beam_width F_y phi_c sizes r.
Proof.
  induction sizes as [| s rest IH]; intros Hpos H.
  - injection H as <-. constructor.
  - inversion Hpos as [| ? ? HA Hrest]; subst.
    destruct s as [[[[hss A] S_x] B_hss] w]. simpl in HA.
    cbn [select_loop] in H.
    rewrite math_sqrt_Return in H by lra. cbn [bind] in H.
    step_div H.
    destruct (Rgt_dec _ 200) as [Hslender | Hslender].
    + apply first_adequate_skip; [now left | now apply IH].
    + step_div H. step_div H.
      destruct (Rle_dec _ 0.9) as [Hinter | Hinter].
      * injection H as <-.
        exists [], (hss, A, S_x, B_hss, w), rest.
        split; [reflexivity |]. split; [reflexivity |].
        split; [| constructor]. split.
        -- unfold slenderness; simpl. lra.
        -- exact Hinter.
      * apply first_adequate_skip; [| now apply IH].
        right. unfold interaction; simpl. lra.
Qed.

(** On regular rows no operation of the loop raises. *)
Lemma select_loop_returns (sizes : list section) :
  Forall (regular F_y phi_c) sizes ->
  exists r,
    select_loop P_total L beam_load beam_width F_y phi_c sizes = Return r.
Proof.
  induction sizes as [| s rest IH]; intros Hreg.
  - now exists None.
  - inversion Hreg as [| ? ? (HA & HPn & HMn) Hrest]; subst.
    destruct (IH Hrest) as (r & Hr).
    destruct s as [[[[hss A] S_x] B_hss] w]. simpl in HA, HPn, HMn.
    assert (Hroot : 0 < sqrt A) by now apply sqrt_lt_R0.
    cbn [select_loop].
    rewrite math_sqrt_Return by lra. cbn [bind].
    rewrite div_Return by (unfold r_factor; lra). cbn [bind].
    destruct (Rgt_dec _ 200); [now exists r |].
    rewrite (div_Return _ _ HPn). cbn [bind].
    rewrite (div_Return _ _ HMn). cbn [bind].
    destruct (Rle_dec _ 0.9); [eexists; reflexivity | now exists r].
Qed.

End Scan.


Lemma hss_sizes_positive :
  Forall (fun s => 0 < area s /\ 0 < modulus s /\ 0 < width s) hss_sizes.
Proof.
  unfold hss_sizes. repeat constructor; simpl; lra.
Qed.

Lemma hss_sizes_regular (F_y phi_c : R) :
  phi_c * F_y <> 0 -> Forall (regular F_y phi_c) hss_sizes.
Proof.
  intros Hnz. eapply Forall_impl; [| exact hss_sizes_positive].
  intros s (HA & HS & _). unfold regular. repeat split.
  - assumption.
  - apply Rmult_integral_contrapositive_currified; lra.
  - apply Rmult_integral_contrapositive_currified; lra.
Qed.

(** With the default F_y = 46 and phi_c = 0.9 the selection never raises. *)
Lemma select_hss_size_default (P_total L beam_load beam_width : R) :
  exists r,
    select_hss_size P_total L beam_load beam_width 46 0.9 = Return r
    /\ first_adequate P_total L beam_load beam_width 46 0.9 hss_sizes r.
Proof.
  destruct (select_loop_returns P_total L beam_load beam_width 46 0.9
              hss_sizes (hss_sizes_regular 46 0.9 ltac:(lra))) as (r & Hr).
  exists r. split; [exact Hr |].
  apply select_loop_sound; [| exact Hr].
  eapply Forall_impl; [| exact hss_sizes_positive].
  intros s Hs. exact (proj1 Hs).
Qed.

(** ** The slenderness check along the catalog *)


Lemma hss_sizes_areas_increase (i j : nat) (s t : section) :
  (i < j)%nat ->
  nth_error hss_sizes i = Some s -> nth_error hss_sizes j = Some t ->
  0 < area s /\ area s < area t.
Proof.
  intros Hij Hs Ht. unfold hss_sizes in Hs, Ht.
  repeat (destruct i as [| i]; simpl in Hs; try discriminate Hs);
    injection Hs as <-;
    repeat (destruct j as [| j]; simpl in Ht; try discriminate Ht);
    try lia;
    injection Ht as <-; simpl; lra.
Qed.


(** ** calculate_plates: the try block as formulas *)

Lemma plates_body_ok
    (P_beam P_upper B_hss beam_width beam_height beam_offset
     lvl_bearing F_y phi load_factor : R) :
  plates_ok P_beam P_upper B_hss beam_width beam_height beam_offset
    lvl_bearing F_y phi load_factor ->
  plates_body P_beam P_upper B_hss beam_width beam_height beam_offset
    lvl_bearing F_y phi load_factor
  = Return (plates_of P_beam P_upper B_hss beam_width beam_height beam_offset
              lvl_bearing F_y phi load_factor).
Proof.
  unfold plates_ok, plates_of, plates_body.
  intros (Hlf & Hlvl & Hbw & Hden & Hratio & HB & Hstress).
  rewrite (div_Return _ _ Hlf). cbn [bind].
  rewrite (div_Return _ _ Hlvl). cbn [bind].
  rewrite (div_Return _ _ Hbw). cbn [bind].
  rewrite !max_Rmax.
  fold (raw_bearing_length P_beam load_factor lvl_bearing beam_width B_hss).
  fold (cap_width B_hss beam_width).
  change (IZR (ceil (raw_bearing_length P_beam load_factor lvl_bearing
                       beam_width B_hss * 4)) / 4)
    with (bearing_length P_beam load_factor lvl_bearing beam_width B_hss).
  set (N := bearing_length P_beam load_factor lvl_bearing beam_width B_hss)
    in *.
  assert (HN : N <> 0) by (intros HN; apply Hden; rewrite HN; ring).
  destruct (Req_dec_T _ 0) as [Hz | _]; [contradiction |].
  rewrite (div_Return _ _ Hden). cbn [bind].
  rewrite (pow_half_Return _ Hratio). cbn [bind].
  assert (Hc : 0.75 * 1.8 * F_y * B_hss <> 0).
  { intros Hc. apply Hden.
    assert (HF : F_y = 0) by nra. rewrite HF. ring. }
  destruct (Rlt_dec (0.75 * 1.8 * F_y * (B_hss * 1.0)) (P_upper / 2))
    as [Hresize | Hkeep].
  - rewrite (div_Return _ _ Hc). cbn [bind].
    rewrite div_Return
      by (apply Rmult_integral_contrapositive_currified; assumption).
    cbn [bind].
    destruct (Rgt_dec _ lvl_bearing) as [Hgt | _];
      [unfold bearing_stress_of in Hstress; lra |].
    rewrite div_Return by lra. cbn [bind].
    rewrite div_Return by lra. cbn [bind].
    rewrite !max_Rmax.
    unfold t_bearing_of, raw_t_bearing, t_cap_of, raw_t_cap, cantilever,
      bearing_stress_of, weld_size_of, raw_weld_size, weld_demand, phi_Rn_weld.
    destruct (Rlt_dec (0.75 * 1.8 * F_y * (B_hss * 1.0)) (P_upper / 2));
      [| contradiction].
    reflexivity.
  - cbn [bind].
    rewrite div_Return
      by (apply Rmult_integral_contrapositive_currified; assumption).
    cbn [bind].
    destruct (Rgt_dec _ lvl_bearing) as [Hgt | _];
      [unfold bearing_stress_of in Hstress; lra |].
    rewrite div_Return by lra. cbn [bind].
    rewrite div_Return by lra. cbn [bind].
    rewrite !max_Rmax.
    unfold t_bearing_of, raw_t_bearing, t_cap_of, raw_t_cap, cantilever,
      bearing_stress_of, weld_size_of, raw_weld_size, weld_demand, phi_Rn_weld.
    destruct (Rlt_dec (0.75 * 1.8 * F_y * (B_hss * 1.0)) (P_upper / 2));
      [contradiction |].
    reflexivity.
Qed.

Lemma plates_body_returns
    (P_beam P_upper B_hss beam_width beam_height beam_offset
     lvl_bearing F_y phi load_factor : R) (p : plates) :
  plates_body P_beam P_upper B_hss beam_width beam_height beam_offset
    lvl_bearing F_y phi load_factor = Return p ->
  plates_ok P_beam P_upper B_hss beam_width beam_height beam_offset
    lvl_bearing F_y phi load_factor.
Proof.
  unfold plates_body, plates_ok. intros H.
  step_div H. step_div H. step_div H.
  rewrite !max_Rmax in H.
  fold (raw_bearing_length P_beam load_factor lvl_bearing beam_width B_hss)
    in H.
  fold (cap_width B_hss beam_width) in H.
  change (IZR (ceil (raw_bearing_length P_beam load_factor lvl_bearing
                       beam_width B_hss * 4)) / 4)
    with (bearing_length P_beam load_factor lvl_bearing beam_width B_hss) in H.
  set (N := bearing_length P_beam load_factor lvl_bearing beam_width B_hss)
    in *.
  destruct (Req_dec_T _ 0) as [Hz | Hden]; [discriminate H |].
  step_div H. step_pow H.
  assert (Hstress :
    bearing_stress_of P_beam load_factor beam_width N <= lvl_bearing
    /\ B_hss <> 0).
  { unfold bearing_stress_of.
    destruct (Rlt_dec _ (P_upper / 2)); cbn [bind] in H;
      [step_div H |];
      step_div H;
      (destruct (Rgt_dec _ lvl_bearing) as [Hgt | Hle]; [discriminate H |]);
      step_div H;
      (split; [lra | intros HB; subst B_hss; lra]). }
  destruct Hstress as [Hstress HB].
  repeat split; assumption.
Qed.

Lemma plates_body_inv
    (P_beam P_upper B_hss beam_width beam_height beam_offset
     lvl_bearing F_y phi load_factor : R) (p : plates) :
  plates_body P_beam P_upper B_hss beam_width beam_height beam_offset
    lvl_bearing F_y phi load_factor = Return p ->
  plates_ok P_beam P_upper B_hss beam_width beam_height beam_offset
    lvl_bearing F_y phi load_factor
  /\ p = plates_of P_beam P_upper B_hss beam_width beam_height beam_offset
           lvl_bearing F_y phi load_factor.
Proof.
  intros H. pose proof (plates_body_returns _ _ _ _ _ _ _ _ _ _ _ H) as Hok.
  split; [assumption |].
  rewrite (plates_body_ok _ _ _ _ _ _ _ _ _ _ Hok) in H. now injection H.
Qed.

(** ** Rounding of the plate thicknesses *)

(** Lines 87-89 compute the raw thickness rounded up to 1/8, at least 3/8. *)
Lemma t_cap_of_round_up (raw : R) :
  t_cap_of raw = Rmax (round_up 8 raw) 0.375.
Proof.
  unfold t_cap_of, round_up.
  pose proof (round_bound (raw * 8)) as Hr.
  destruct (round_then_bump (raw * 8)) as [[Hle Heq] | [Hlt Heq]];
    rewrite <- Heq; clear Heq.
  - destruct (Rlt_dec _ raw) as [Hshort | _]; [| reflexivity].
    exfalso. revert Hshort. unfold Rmax. destruct (Rle_dec _ _); lra.
  - rewrite plus_IZR.
    destruct (Rle_dec 3 (IZR (round (raw * 8)))) as [Hbig | Hsmall].
    + rewrite Rmax_left by lra. rewrite Rmax_left by lra.
      destruct (Rlt_dec _ raw) as [_ | Hno]; lra.
    + assert (Hz : (round (raw * 8) < 3)%Z) by (apply lt_IZR; lra).
      assert (H2 : IZR (round (raw * 8)) <= 2) by (apply IZR_le; lia).
      rewrite Rmax_right by lra. rewrite Rmax_right by lra.
      destruct (Rlt_dec _ raw) as [Hshort | _]; lra.
Qed.

Lemma t_cap_of_covers (raw : R) : Rmax raw 0.375 <= t_cap_of raw.
Proof.
  rewrite t_cap_of_round_up.
  pose proof (round_up_bound 8 raw ltac:(lia)) as Hb.
  apply Rmax_case_strong; intros _.
  - apply Rle_trans with (round_up 8 raw); [lra | apply Rmax_l].
  - apply Rmax_r.
Qed.

(** Lines 99-101 compute the raw thickness rounded up to 1/8. *)
Lemma t_bearing_of_round_up (P_upper F_y B_hss : R) :
  t_bearing_of P_upper F_y B_hss
  = if Rlt_dec (0.75 * 1.8 * F_y * (B_hss * 1.0)) (P_upper / 2)
    then round_up 8 (raw_t_bearing P_upper F_y B_hss)
    else 1.0.
Proof.
  unfold t_bearing_of. destruct (Rlt_dec _ (P_upper / 2)); [| reflexivity].
  cbv zeta. set (raw := raw_t_bearing P_upper F_y B_hss). unfold round_up.
  destruct (round_then_bump (raw * 8)) as [[Hle Heq] | [Hlt Heq]];
    rewrite <- Heq; clear Heq.
  - now rewrite if_Rlt_false by lra.
  - rewrite if_Rlt_true by lra. rewrite plus_IZR. lra.
Qed.


(** ** calculate_plates: errors and the bearing check *)

Section Boundary.

Variable fmt : nat -> R -> string.
Variable str_num : R -> string.
Variable builtin_message : exn -> string.

Variables P_beam P_upper B_hss beam_width beam_height beam_offset
          lvl_bearing F_y phi load_factor : R.





End Boundary.

(** ** process_column_stack *)

Lemma accumulate_suffix_sums (front back : list case) :
  accumulate (rev front) (sum_loads back) (suffix_sums back)
  = suffix_sums (front ++ back).
Proof.
  revert back. induction front as [| c front IH] using rev_ind; intros back.
  - reflexivity.
  - rewrite rev_unit, <- app_assoc. cbn [accumulate app].
    destruct c as [[[post_length beam_load] beam_width] beam_height].
    replace (sum_loads back + beam_load)
      with (sum_loads
              ((post_length, beam_load, beam_width, beam_height) :: back))
      by (unfold sum_loads; cbn; lra).
    apply (IH ((post_length, beam_load, beam_width, beam_height) :: back)).
Qed.

Lemma total_loads_suffix_sums (cases : list case) :
  total_loads cases = suffix_sums cases.
Proof.
  unfold total_loads.
  rewrite <- (app_nil_r cases) at 2. exact (accumulate_suffix_sums cases []).
Qed.

Lemma suffix_sums_length (cases : list case) :
  List.length (suffix_sums cases) = List.length cases.
Proof. induction cases; cbn; congruence. Qed.

Lemma suffix_sums_nth (cases : list case) (i : nat) :
  (i < List.length cases)%nat ->
  nth i (suffix_sums cases) 0 = sum_loads (skipn i cases).
Proof.
  revert i. induction cases as [| c rest IH]; intros i Hi; [cbn in Hi; lia |].
  destruct i as [| i]; [reflexivity |].
  cbn in Hi. cbn [suffix_sums nth skipn]. apply IH. lia.
Qed.

Lemma sum_loads_skipn (cases : list case) (i : nat) (c : case) :
  nth_error cases i = Some c ->
  sum_loads (skipn i cases) - beam_load_of c = sum_loads (skipn (S i) cases).
Proof.
  revert i. induction cases as [| c' rest IH]; intros i Hi.
  - destruct i; discriminate Hi.
  - destruct i as [| i].
    + injection Hi as ->. unfold sum_loads. cbn.
      destruct c as [[[? ?] ?] ?]. cbn. lra.
    + cbn in Hi. exact (IH i Hi).
Qed.

Section Levels.

Variable fmt : nat -> R -> string.
Variable str_num : R -> string.
Variable builtin_message : exn -> string.
Variable lvl_bearing : R.

Lemma process_level_returns (i : nat) (c : case) (P_total : R) :
  exists entry,
    process_level fmt str_num builtin_message lvl_bearing i c P_total
    = Return entry.
Proof.
  destruct c as [[[post_length beam_load] beam_width] beam_height].
  unfold process_level.
  destruct (select_hss_size_default P_total post_length beam_load beam_width)
    as (r & -> & _).
  cbn [bind].
  destruct r as [[[[hss A_hss] S_hss] B_hss] |]; eexists; reflexivity.
Qed.

(** The second loop appends one entry per remaining level, in order. *)
Lemma process_levels_entries (zipped : list (case * R)) :
  forall (i : nat) (results : list string),
  exists entries,
    process_levels fmt str_num builtin_message lvl_bearing i zipped results
    = Return (results ++ entries)
    /\ List.length entries = List.length zipped
    /\ forall k c P_total,
         nth_error zipped k = Some (c, P_total) ->
         exists entry,
           nth_error entries k = Some entry
           /\ process_level fmt str_num builtin_message lvl_bearing
                (i + k) c P_total = Return entry.
Proof.
  induction zipped as [| [c P_total] rest IH]; intros i results.
  - exists []. split; [now rewrite app_nil_r |]. split; [reflexivity |].
    intros k c P Hk. destruct k; discriminate Hk.
  - cbn [process_levels].
    destruct (process_level_returns i c P_total) as (entry & Hentry).
    rewrite Hentry. cbn [bind].
    destruct (IH (S i) (results ++ [entry])) as (entries & Hrun & Hlen & Hnth).
    exists (entry :: entries).
    split; [now rewrite Hrun, <- app_assoc |].
    split; [cbn; now rewrite Hlen |].
    intros k c' P' Hk. destruct k as [| k].
    + injection Hk as <- <-. exists entry. split; [reflexivity |].
      now rewrite Nat.add_0_r.
    + cbn in Hk. destruct (Hnth k c' P' Hk) as (entry' & Hk' & Hrun').
      exists entry'. split; [exact Hk' |].
      now rewrite Nat.add_succ_r.
Qed.

Lemma nth_error_combine_totals (cases : list case) (i : nat) (c : case) :
  nth_error cases i = Some c ->
  nth_error (combine cases (total_loads cases)) i
  = Some (c, sum_loads (skipn i cases)).
Proof.
  rewrite total_loads_suffix_sums. revert i.
  induction cases as [| c' rest IH]; intros i Hi.
  - destruct i; discriminate Hi.
  - destruct i as [| i].
    + injection Hi as ->. reflexivity.
    + cbn in Hi. cbn [suffix_sums combine nth_error skipn]. exact (IH i Hi).
Qed.

(** process_column_stack never raises; its result has one entry per case,
    the entry of level i + 1 being that of [process_level] on the i-th case
    and the total of the loads from that case upwards. *)
Lemma process_column_stack_entries (cases : list case) :
  exists results,
    process_column_stack fmt str_num builtin_message cases lvl_bearing
    = Return results
    /\ List.length results = List.length cases
    /\ forall i c,
         nth_error cases i = Some c ->
         exists entry,
           nth_error results i = Some entry
           /\ process_level fmt str_num builtin_message lvl_bearing
                (S i) c (sum_loads (skipn i cases)) = Return entry.
Proof.
  unfold process_column_stack.
  destruct (process_levels_entries (combine cases (total_loads cases)) 1 [])
    as (entries & Hrun & Hlen & Hnth).
  exists entries. split; [exact Hrun |]. split.
  - rewrite Hlen, length_combine, total_loads_suffix_sums, suffix_sums_length.
    apply Nat.min_id.
  - intros i c Hi.
    exact (Hnth i c _ (nth_error_combine_totals cases i c Hi)).
Qed.

End Levels.

Section StackClaims.

Variable fmt : nat -> R -> string.
Variable str_num : R -> string.
Variable builtin_message : exn -> string.
Variable lvl_bearing : R.



End StackClaims.

(** ** The example of the source file *)

(** Level 1 of the example of the source file: beam load 56 on a 3 x 12
    beam, 116.1 in total, on the HSS6x6x3/16 post. *)

Lemma level_1_bearing_length : bearing_length 56 1.6 500 3 6.0 = 23.5.
Proof.
  unfold bearing_length, raw_bearing_length. eval_Rmax.
  rewrite (round_up_eq 4 94) by lra. lra.
Qed.

Lemma level_1_cap_width : cap_width 6.0 3 = 8.
Proof. unfold cap_width. eval_Rmax. lra. Qed.

Lemma level_1_cantilever : cantilever 6.0 3 0 = 3.
Proof.
  unfold cantilever. rewrite level_1_cap_width. eval_Rmax. lra.
Qed.

Lemma level_1_t_cap :
  t_cap_of (raw_t_cap 56 (116.1 - 56) 6.0 3 0 36 0.9 23.5) = 0.625.
Proof.
  rewrite t_cap_of_round_up. unfold raw_t_cap.
  rewrite level_1_cantilever, level_1_cap_width.
  set (x := 2 * (56 + (116.1 - 56)) / (0.9 * 36 * 8 * 23.5)).
  assert (Hlo : 0.17 <= sqrt x) by (apply sqrt_lower; unfold x; lra).
  assert (Hhi : sqrt x <= 0.2) by (apply sqrt_upper; unfold x; lra).
  rewrite (round_up_eq 8 5) by lra. eval_Rmax. lra.
Qed.

Lemma level_1_t_bearing : t_bearing_of (116.1 - 56) 36 6.0 = 1.0.
Proof. unfold t_bearing_of. now rewrite if_Rlt_false by lra. Qed.

Lemma level_1_weld_demand : weld_demand 56 (116.1 - 56) 6.0 = 116.1 / 24.
Proof. unfold weld_demand. eval_Rmax. lra. Qed.

Lemma level_1_weld_size : weld_size_of 56 (116.1 - 56) 6.0 = 3 / 16.
Proof.
  unfold weld_size_of, raw_weld_size. rewrite level_1_weld_demand.
  rewrite if_Rgt_true by (unfold phi_Rn_weld; lra).
  now rewrite (round_eq 3) by lra.
Qed.

Lemma level_1_plates_ok : plates_ok 56 (116.1 - 56) 6.0 3 12 0 500 36 0.9 1.6.
Proof.
  unfold plates_ok, bearing_stress_of.
  rewrite level_1_bearing_length, level_1_cap_width.
  repeat split; try lra.
Qed.

Lemma level_1_plates :
  plates_body 56 (116.1 - 56) 6.0 3 12 0 500 36 0.9 1.6
  = Return (Plates 8 23.5 0.625 6.0 12 1.0
                   (56 / 1.6 * 1000 / (3 * 23.5)) (3 / 16)).
Proof.
  rewrite (plates_body_ok _ _ _ _ _ _ _ _ _ _ level_1_plates_ok).
  unfold plates_of, bearing_stress_of.
  rewrite level_1_bearing_length, level_1_cap_width, level_1_t_cap,
    level_1_t_bearing, level_1_weld_size.
  reflexivity.
Qed.

Lemma level_1_selection :
  select_hss_size 116.1 120 56 3 46 0.9
  = Return (Some ("HSS6x6x3/16"%string, 4.30, 10.3, 6.0)).
Proof.
  unfold select_hss_size, hss_sizes. cbn [select_loop].
  rewrite math_sqrt_Return by lra. cbn [bind].
  assert (Hroot : 1.5 <= sqrt 4.30) by (apply sqrt_lower; lra).
  rewrite div_Return by (unfold r_factor; lra). cbn [bind].
  rewrite if_Rgt_false by (apply div_le_iff; unfold K, r_factor; lra).
  rewrite div_Return by lra. cbn [bind].
  rewrite div_Return by lra. cbn [bind].
  now rewrite if_Rle_true by lra.
Qed.

Lemma level_1_adequate :
  adequate 116.1 120 56 3 46 0.9 ("HSS6x6x3/16"%string, 4.30, 10.3, 6.0, 12.5).
Proof.
  assert (Hroot : 1.5 <= sqrt 4.30) by (apply sqrt_lower; lra).
  split.
  - unfold slenderness; simpl. apply div_le_iff; unfold K, r_factor; lra.
  - unfold interaction; simpl. lra.
Qed.

(** The example of the source file, [cases] of the main block. *)
Lemma example_total_loads :
  total_loads example_cases
  = [ 0 + 0.1 + 20 + 40 + 56; 0 + 0.1 + 20 + 40; 0 + 0.1 + 20; 0 + 0.1 ].
Proof. reflexivity. Qed.


(** ** The claims on concrete inputs *)


(** The claim of C2 fails: at these inputs the selection is not
    HSS8x8x1/4. *)
Lemma level_1_not_HSS8x8x1_4 :
  ~ exists A S_x B_hss p,
      select_hss_size 116.1 120 56 3 46 0.9
      = Return (Some ("HSS8x8x1/4"%string, A, S_x, B_hss))
      /\ plates_body 56 (116.1 - 56) B_hss 3 12 0 500 36 0.9 1.6 = Return p
      /\ 10 <= B p /\ 1.0 <= t_bearing p.
Proof.
  intros (A & S_x & B_hss & p & Hsel & _).
  rewrite level_1_selection in Hsel. discriminate Hsel.
Qed.

(** C2, as amended: for post length 120, beam load 56, beam width 3, beam
    height 12 and the cumulative total 116.1 = 56+40+20+0.1 (level 1 of the
    example of the source file) the first row of the catalog, HSS6x6x3/16,
    passes both checks and is returned; the plate design that follows is not
    an error, its cap plate is 8 in wide and its bearing plates are 1.0 in
    thick. *)
Theorem level_1_design :
  nth 0 (total_loads example_cases) 0 = 116.1
  /\ adequate 116.1 120 56 3 46 0.9
       ("HSS6x6x3/16"%string, 4.30, 10.3, 6.0, 12.5)
  /\ select_hss_size 116.1 120 56 3 46 0.9
     = Return (Some ("HSS6x6x3/16"%string, 4.30, 10.3, 6.0))
  /\ exists p,
       plates_body 56 (116.1 - 56) 6.0 3 12 0 500 36 0.9 1.6 = Return p
       /\ B p = 8 /\ t_bearing p = 1.0 /\ 1.0 <= t_bearing p
       /\ forall fmt str_num builtin_message,
            calculate_plates fmt str_num builtin_message
              56 (116.1 - 56) 6.0 3 12 0 500 36 0.9 1.6
            = plates_dict fmt p
            /\ keys (plates_dict fmt p) = design_keys
            /\ exists results,
                 process_column_stack fmt str_num builtin_message
                   example_cases 500 = Return results
                 /\ nth_error results 0
                    = Some (level_design 1 "HSS6x6x3/16" (plates_dict fmt p)).
Proof.
  split; [rewrite example_total_loads; cbn; lra |].
  split; [exact level_1_adequate |].
  split; [exact level_1_selection |].
  eexists. split; [exact level_1_plates |]. cbn [B t_bearing].
  split; [reflexivity |]. split; [reflexivity |]. split; [lra |].
  intros fmt str_num builtin_message.
  assert (Hcalc :
    calculate_plates fmt str_num builtin_message
      56 (116.1 - 56) 6.0 3 12 0 500 36 0.9 1.6
    = plates_dict fmt
        (Plates 8 23.5 0.625 6.0 12 1.0 (56 / 1.6 * 1000 / (3 * 23.5))
           (3 / 16))).
  { unfold calculate_plates. now rewrite level_1_plates. }
  split; [exact Hcalc |]. split; [reflexivity |].
  destruct (process_column_stack_entries fmt str_num builtin_message 500
              example_cases) as (results & Hrun & _ & Hnth).
  exists results. split; [exact Hrun |].
  destruct (Hnth 0%nat (120, 56, 3, 12) eq_refl) as (entry & Hentry & Hlevel).
  replace (sum_loads (skipn 0 example_cases)) with 116.1 in Hlevel
    by (unfold sum_loads, example_cases; cbn; lra).
  unfold process_level in Hlevel. rewrite level_1_selection in Hlevel.
  cbn [bind] in Hlevel. rewrite Hcalc in Hlevel.
  injection Hlevel as <-. exact Hentry.
Qed.

(** C3 fails on the code at level 1 of the example of the source file: the
    weld demand 116.1/24 exceeds the capacity of the 3/16-in weld, the
    required size is about 0.217 in, and the size reported is 3/16 in:
    [round] went down and nothing steps the result back up. *)
Theorem weld_size_rounds_down :
  exists p,
    plates_body 56 (116.1 - 56) 6.0 3 12 0 500 36 0.9 1.6 = Return p
    /\ weld_demand 56 (116.1 - 56) 6.0 > phi_Rn_weld
    /\ weld_size p = 3 / 16
    /\ weld_size p < raw_weld_size 56 (116.1 - 56) 6.0.
Proof.
  eexists. split; [exact level_1_plates |]. cbn.
  unfold raw_weld_size. rewrite level_1_weld_demand.
  unfold phi_Rn_weld. repeat split; lra.
Qed.






(** * Binary64: the format

    What the kernel's specification of binary64 ([SpecFloat], to which
    [FloatAxioms] ties the primitive operations) gives for the operations
    of the program that are exact: scaling by a power of two, the
    conversion of an integer, addition on a common grid, and the order.
    Numbers are counted in units of 2^-1074, the smallest positive float,
    so that every finite float is an integer ([scaled]). *)

Section Binary64Format.

Import Binary64.

#[local] Open Scope Z_scope.

(** ** The number of bits of a mantissa *)

Lemma digits2_pos_bounds (m : positive) :
  2 ^ (Z.pos (digits2_pos m) - 1) <= Z.pos m < 2 ^ Z.pos (digits2_pos m).
Proof.
  induction m as [m IH | m IH |]; cbn [digits2_pos].
  - rewrite Pos2Z.inj_succ, Z.pow_succ_r by lia.
    replace (Z.succ (Z.pos (digits2_pos m)) - 1)
      with (Z.succ (Z.pos (digits2_pos m) - 1)) by lia.
    rewrite Z.pow_succ_r by lia. lia.
  - rewrite Pos2Z.inj_succ, Z.pow_succ_r by lia.
    replace (Z.succ (Z.pos (digits2_pos m)) - 1)
      with (Z.succ (Z.pos (digits2_pos m) - 1)) by lia.
    rewrite Z.pow_succ_r by lia. lia.
  - cbn. lia.
Qed.

(** The number of bits is fixed by the powers of two around the number. *)
Lemma Zdigits2_unique (x d : Z) :
  0 < x -> 2 ^ (d - 1) <= x < 2 ^ d -> Zdigits2 x = d.
Proof.
  intros Hx [Hl Hu]. destruct x as [| p | p]; try lia. cbn [Zdigits2].
  pose proof (digits2_pos_bounds p) as [Hl' Hu'].
  destruct (Z.lt_trichotomy (Z.pos (digits2_pos p)) d) as [H | [H | H]];
    [| exact H |].
  - assert (2 ^ Z.pos (digits2_pos p) <= 2 ^ (d - 1))
      by (apply Z.pow_le_mono_r; lia). lia.
  - assert (0 <= d).
    { destruct (Z.lt_ge_cases d 0) as [Hd | Hd]; [| exact Hd].
      rewrite (Z.pow_neg_r 2 d Hd) in Hu. lia. }
    assert (2 ^ d <= 2 ^ (Z.pos (digits2_pos p) - 1))
      by (apply Z.pow_le_mono_r; lia). lia.
Qed.

(** Appending [n] zero bits adds [n] to the number of bits. *)
Lemma Zdigits2_shift (m : positive) (n : Z) :
  0 <= n -> Zdigits2 (Z.pos m * 2 ^ n) = Z.pos (digits2_pos m) + n.
Proof.
  intros Hn. pose proof (digits2_pos_bounds m) as [Hl Hu].
  assert (Hp : 0 < 2 ^ n) by (apply Z.pow_pos_nonneg; lia).
  apply Zdigits2_unique; [lia |].
  replace (Z.pos (digits2_pos m) + n - 1)
    with (Z.pos (digits2_pos m) - 1 + n) by lia.
  rewrite !Z.pow_add_r by lia. nia.
Qed.

(** ** Rounding a number the format holds *)

(** Shifting out bits that are zero loses nothing. *)
Lemma iter_pos_shr_1 (p : positive) : forall q : positive,
  SpecFloat.iter_pos shr_1 p (exact_record (Z.pos q * 2 ^ Z.pos p))
  = exact_record (Z.pos q).
Proof.
  induction p as [p IH | p IH |]; intros q; cbn [SpecFloat.iter_pos].
  - replace (Z.pos q * 2 ^ Z.pos p~1)
      with (Z.pos (xO (q * 2 ^ p * 2 ^ p))).
    + cbn [exact_record shr_1 orb].
      fold (exact_record (Z.pos (q * 2 ^ p * 2 ^ p))).
      rewrite Pos2Z.inj_mul, Pos2Z.inj_pow, IH.
      rewrite Pos2Z.inj_mul, Pos2Z.inj_pow, IH. reflexivity.
    + rewrite Pos2Z.inj_xO, !Pos2Z.inj_mul, !Pos2Z.inj_pow.
      rewrite (Pos2Z.inj_xI p), Z.pow_add_r, Z.pow_mul_r by lia.
      change (2 ^ 2) with 4. change (2 ^ 1) with 2.
      replace 4 with (2 * 2) by reflexivity.
      rewrite Z.pow_mul_l. lia.
  - replace (Z.pos q * 2 ^ Z.pos p~0)
      with (Z.pos (q * 2 ^ p) * 2 ^ Z.pos p).
    + rewrite IH. rewrite Pos2Z.inj_mul, Pos2Z.inj_pow, IH. reflexivity.
    + rewrite !Pos2Z.inj_mul, !Pos2Z.inj_pow.
      rewrite (Pos2Z.inj_xO p), Z.pow_mul_r by lia.
      change (2 ^ 2) with (2 * 2). rewrite Z.pow_mul_l. lia.
  - replace (Z.pos q * 2 ^ 1) with (Z.pos (xO q)) by (rewrite Z.pow_1_r; lia).
    reflexivity.
Qed.

Lemma shr_exact (q : positive) (e n : Z) :
  0 <= n ->
  shr (exact_record (Z.pos q * 2 ^ n)) e n = (exact_record (Z.pos q), e + n).
Proof.
  intros Hn. destruct n as [| p | p]; try lia; cbn [shr].
  - rewrite Z.pow_0_r, Z.mul_1_r, Z.add_0_r. reflexivity.
  - rewrite iter_pos_shr_1. reflexivity.
Qed.

#[local] Notation "'fexp'" := (SpecFloat.fexp prec emax) (at level 0).
#[local] Notation "'canonical'" :=
  (canonical_mantissa prec emax) (at level 0).
#[local] Notation "'bounded'" := (SpecFloat.bounded prec emax) (at level 0).

Lemma fexp_eq (e : Z) : fexp e = Z.max (e - 53) (-1074).
Proof. reflexivity. Qed.

Lemma canonical_iff (m : positive) (e : Z) :
  canonical m e = true <-> fexp (Z.pos (digits2_pos m) + e) = e.
Proof. unfold canonical_mantissa. apply Z.eqb_eq. Qed.

(** A mantissa that is the canonical one followed by [n] zero bits is
    rounded to the canonical one. *)
Lemma binary_round_aux_exact (s : bool) (q : positive) (E n : Z) :
  0 <= n -> canonical q E = true ->
  binary_round_aux prec emax s (Z.pos q * 2 ^ n) (E - n) loc_Exact
  = if E <=? 971 then S754_finite s q E else S754_infinity s.
Proof.
  intros Hn Hc. apply canonical_iff in Hc.
  unfold binary_round_aux, shr_fexp.
  rewrite Zdigits2_shift by exact Hn.
  replace (Z.pos (digits2_pos q) + n + (E - n))
    with (Z.pos (digits2_pos q) + E) by lia.
  rewrite Hc. replace (E - (E - n)) with n by lia.
  cbn [shr_record_of_loc]. fold (exact_record (Z.pos q * 2 ^ n)).
  rewrite shr_exact by exact Hn.
  replace (E - n + n) with E by lia.
  cbn [exact_record shr_m loc_of_shr_record round_nearest_even Zdigits2
       shr_record_of_loc].
  rewrite Hc, Z.sub_diag. cbn [shr shr_m]. reflexivity.
Qed.

Lemma pow2_pos (n : Z) : 0 <= n -> 0 < 2 ^ n.
Proof. intros. apply Z.pow_pos_nonneg; lia. Qed.

Lemma pow2_split (a b : Z) : 0 <= a <= b -> 2 ^ b = 2 ^ (b - a) * 2 ^ a.
Proof. intros H. rewrite <- Z.pow_add_r by lia. f_equal. lia. Qed.

(** What the format asks of a mantissa and an exponent: the exponent is
    fixed by the number of bits, between -1074 and 971, and there are at
    most 53 bits. *)
Lemma bounded_inv (m : positive) (e : Z) :
  bounded m e = true ->
  fexp (Z.pos (digits2_pos m) + e) = e /\ -1074 <= e <= 971
  /\ Z.pos (digits2_pos m) <= 53.
Proof.
  unfold SpecFloat.bounded. intros H.
  apply andb_prop in H as [Hc He].
  apply canonical_iff in Hc. apply Z.leb_le in He.
  change (emax - prec) with 971 in He.
  split; [exact Hc |]. rewrite fexp_eq in Hc. lia.
Qed.

Lemma bounded_intro (m : positive) (e : Z) :
  fexp (Z.pos (digits2_pos m) + e) = e -> e <= 971 -> bounded m e = true.
Proof.
  intros Hc He. unfold SpecFloat.bounded.
  apply andb_true_intro. split.
  - apply canonical_iff. exact Hc.
  - apply Z.leb_le. exact He.
Qed.

(** A positive integer as a positive. *)
Lemma Zpos_to_pos (z : Z) : 0 < z -> Z.pos (Z.to_pos z) = z.
Proof. intros. apply Z2Pos.id. lia. Qed.

Lemma digits2_to_pos_shift (m : positive) (n : Z) :
  0 <= n ->
  Z.pos (digits2_pos (Z.to_pos (Z.pos m * 2 ^ n)))
  = Z.pos (digits2_pos m) + n.
Proof.
  intros Hn. rewrite <- Zdigits2_shift by exact Hn.
  pose proof (pow2_pos n Hn).
  assert (Hz : 0 < Z.pos m * 2 ^ n) by nia.
  rewrite <- (Zpos_to_pos _ Hz) at 2. reflexivity.
Qed.

(** [binary_round_aux] on a mantissa whose low bits, down to the exponent
    of the format, are zero. *)
Lemma binary_round_aux_grid (s : bool) (m : positive) (e n : Z) :
  0 <= n ->
  fexp (Z.pos (digits2_pos m) + n + e) = e + n ->
  binary_round_aux prec emax s (Z.pos m * 2 ^ n) e loc_Exact
  = if e + n <=? 971 then S754_finite s m (e + n) else S754_infinity s.
Proof.
  intros Hn Hc.
  replace e with (e + n - n) at 1 by lia.
  apply binary_round_aux_exact; [exact Hn |].
  apply canonical_iff. rewrite <- Hc. f_equal. lia.
Qed.

Lemma Pos_iter_xO (m p : positive) :
  Z.pos (Pos.iter xO m p) = Z.pos m * 2 ^ Z.pos p.
Proof.
  revert m. induction p as [| p IH] using Pos.peano_ind; intros m.
  - cbn [Pos.iter]. rewrite Z.pow_1_r. lia.
  - rewrite Pos.iter_succ, Pos2Z.inj_xO, IH, Pos2Z.inj_succ,
      Z.pow_succ_r by lia. lia.
Qed.

Lemma shl_align_value (m : positive) (e e' : Z) :
  e' <= e ->
  shl_align m e e' = (Z.to_pos (Z.pos m * 2 ^ (e - e')), e').
Proof.
  intros H. unfold shl_align.
  destruct (e' - e) as [| p | p] eqn:Hd; try lia.
  - replace (e - e') with 0 by lia. rewrite Z.pow_0_r, Z.mul_1_r.
    cbn [Z.to_pos]. f_equal. lia.
  - replace (e - e') with (Z.pos p) by lia.
    rewrite <- Pos_iter_xO. reflexivity.
Qed.

Lemma shl_align_above (m : positive) (e e' : Z) :
  e <= e' -> shl_align m e e' = (m, e).
Proof.
  intros H. unfold shl_align.
  destruct (e' - e) as [| p | p] eqn:Hd; try lia; reflexivity.
Qed.

(** The result of [binary_round] on [m * 2 ^ e] when that number lies on
    the grid [2 ^ g] and below [2 ^ (53 + g)]. *)
Lemma binary_round_grid (s : bool) (m : positive) (e g : Z) :
  -1074 <= g -> -1074 <= e -> g + 53 <= 1024 ->
  (e <= g -> (2 ^ (g - e) | Z.pos m)) ->
  Z.pos m * 2 ^ (e + 1074) < 2 ^ (53 + g + 1074) ->
  exists (q : positive) (E : Z),
    binary_round prec emax s m e = S754_finite s q E
    /\ bounded q E = true
    /\ Z.pos q * 2 ^ (E + 1074) = Z.pos m * 2 ^ (e + 1074).
Proof.
  intros Hg He Hov Hdiv Hlt.
  pose proof (digits2_pos_bounds m) as [Hl Hu].
  set (d := Z.pos (digits2_pos m)) in *.
  assert (Hd1 : 1 <= d) by (unfold d; lia).
  assert (Hd : d + e - 53 <= g).
  { destruct (Z.le_gt_cases (d + e - 53) g) as [H | H]; [exact H | exfalso].
    assert (2 ^ (53 + g + 1074) <= 2 ^ (d - 1 + (e + 1074)))
      by (apply Z.pow_le_mono_r; lia).
    rewrite (Z.pow_add_r 2 (d - 1) (e + 1074)) in H0 by lia.
    pose proof (pow2_pos (e + 1074) ltac:(lia)). nia. }
  unfold binary_round. fold d.
  set (E := fexp (d + e)).
  assert (HE : E = Z.max (d + e - 53) (-1074)) by (subst E; apply fexp_eq).
  destruct (Z.le_gt_cases e E) as [HeE | HeE].
  - rewrite shl_align_above by exact HeE.
    destruct (Hdiv ltac:(lia)) as [c Hc].
    assert (Hsplit : 2 ^ (g - e) = 2 ^ (g - E) * 2 ^ (E - e)).
    { rewrite <- Z.pow_add_r by lia. f_equal. lia. }
    pose proof (pow2_pos (g - E) ltac:(lia)) as Hp1.
    pose proof (pow2_pos (E - e) ltac:(lia)) as Hp2.
    assert (Hq : 0 < c * 2 ^ (g - E)) by nia.
    exists (Z.to_pos (c * 2 ^ (g - E))), E.
    assert (Hm : Z.pos m = Z.pos (Z.to_pos (c * 2 ^ (g - E))) * 2 ^ (E - e)).
    { rewrite Zpos_to_pos by exact Hq. rewrite Hc, Hsplit. ring. }
    assert (Hdig : Z.pos (digits2_pos (Z.to_pos (c * 2 ^ (g - E)))) + (E - e)
                   = d).
    { rewrite <- Zdigits2_shift by lia. rewrite <- Hm. reflexivity. }
    assert (Hcan : fexp (Z.pos (digits2_pos (Z.to_pos (c * 2 ^ (g - E))))
                         + (E - e) + e) = e + (E - e)).
    { rewrite Hdig. subst E. lia. }
    rewrite Hm. rewrite binary_round_aux_grid by (lia || exact Hcan).
    replace (e + (E - e)) with E by lia.
    assert (HE971 : E <= 971) by lia.
    apply Z.leb_le in HE971 as HE971'. rewrite HE971'.
    split; [reflexivity |]. split.
    + apply bounded_intro; [| exact HE971].
      replace (Z.pos (digits2_pos (Z.to_pos (c * 2 ^ (g - E)))) + E)
        with (Z.pos (digits2_pos (Z.to_pos (c * 2 ^ (g - E)))) + (E - e) + e)
        by lia.
      rewrite Hcan. lia.
    + rewrite (pow2_split (e + 1074) (E + 1074)) by lia.
      replace (E + 1074 - (e + 1074)) with (E - e) by lia. ring.
  - rewrite shl_align_value by lia.
    pose proof (pow2_pos (e - E) ltac:(lia)) as Hp.
    assert (Hq : 0 < Z.pos m * 2 ^ (e - E)) by nia.
    exists (Z.to_pos (Z.pos m * 2 ^ (e - E))), E.
    assert (Hcan : fexp (Z.pos (digits2_pos (Z.to_pos (Z.pos m * 2 ^ (e - E))))
                         + 0 + E) = E + 0).
    { rewrite digits2_to_pos_shift by lia. fold d.
      replace (d + (e - E) + 0 + E) with (d + e) by lia. subst E. lia. }
    replace (Z.pos (Z.to_pos (Z.pos m * 2 ^ (e - E))))
      with (Z.pos (Z.to_pos (Z.pos m * 2 ^ (e - E))) * 2 ^ 0)
      by (rewrite Z.pow_0_r; lia).
    rewrite binary_round_aux_grid by (lia || exact Hcan).
    replace (E + 0) with E by lia.
    assert (HE971 : E <= 971) by lia.
    apply Z.leb_le in HE971 as HE971'. rewrite HE971'.
    split; [reflexivity |]. split.
    + apply bounded_intro; [| exact HE971].
      replace (Z.pos (digits2_pos (Z.to_pos (Z.pos m * 2 ^ (e - E)))) + E)
        with (Z.pos (digits2_pos (Z.to_pos (Z.pos m * 2 ^ (e - E)))) + 0 + E)
        by lia.
      rewrite Hcan. lia.
    + rewrite Zpos_to_pos by exact Hq.
      rewrite (pow2_split (E + 1074) (e + 1074)) by lia.
      replace (e + 1074 - (E + 1074)) with (e - E) by lia. ring.
Qed.

(** [binary_round_aux] on a mantissa with enough trailing zeros. *)
Lemma binary_round_aux_zeros (s : bool) (m : positive) (j e0 : Z) :
  0 <= j ->
  e0 <= fexp (Z.pos (digits2_pos m) + j + e0) <= e0 + j ->
  let E := fexp (Z.pos (digits2_pos m) + j + e0) in
  let q := Z.to_pos (Z.pos m * 2 ^ (e0 + j - E)) in
  binary_round_aux prec emax s (Z.pos m * 2 ^ j) e0 loc_Exact
  = (if E <=? 971 then S754_finite s q E else S754_infinity s)
  /\ fexp (Z.pos (digits2_pos q) + E) = E
  /\ Z.pos q = Z.pos m * 2 ^ (e0 + j - E).
Proof.
  intros Hj HE E q.
  pose proof (pow2_pos (e0 + j - E) ltac:(lia)) as Hp.
  assert (Hq : Z.pos q = Z.pos m * 2 ^ (e0 + j - E)).
  { unfold q. apply Zpos_to_pos. nia. }
  assert (Hd : Z.pos (digits2_pos q)
               = Z.pos (digits2_pos m) + (e0 + j - E)).
  { unfold q. apply digits2_to_pos_shift. lia. }
  assert (Hm : Z.pos m * 2 ^ j = Z.pos q * 2 ^ (E - e0)).
  { rewrite Hq, <- Z.mul_assoc, <- Z.pow_add_r by lia.
    do 2 f_equal. lia. }
  assert (Hc : fexp (Z.pos (digits2_pos q) + E) = E).
  { rewrite Hd. fold E.
    replace (Z.pos (digits2_pos m) + (e0 + j - E) + E)
      with (Z.pos (digits2_pos m) + j + e0) by lia.
    reflexivity. }
  split; [| split; [exact Hc | exact Hq]].
  rewrite Hm, binary_round_aux_grid.
  - replace (e0 + (E - e0)) with E by lia. reflexivity.
  - lia.
  - replace (Z.pos (digits2_pos q) + (E - e0) + e0)
      with (Z.pos (digits2_pos q) + E) by lia.
    rewrite Hc. lia.
Qed.

(** Multiplying by [2 ^ k] multiplies the value by [2 ^ k], unless the
    result overflows. *)
Lemma SFmul_pow2 (s : bool) (m : positive) (e k : Z) :
  bounded m e = true -> 0 <= k <= 52 ->
  exists (q : positive) (E : Z),
    SFmul prec emax (S754_finite s m e) (pow2_sf k)
    = (if E <=? 971 then S754_finite s q E else S754_infinity s)
    /\ -1074 <= E
    /\ Z.pos q * 2 ^ (E + 1074) = 2 ^ k * (Z.pos m * 2 ^ (e + 1074)).
Proof.
  intros Hb Hk. apply bounded_inv in Hb as (Hc & He & Hd).
  rewrite fexp_eq in Hc.
  set (d := Z.pos (digits2_pos m)) in *.
  assert (HE : e + k - 52 <= fexp (d + 52 + (e + k - 52)) <= e + k - 52 + 52)
    by (rewrite fexp_eq; lia).
  destruct (binary_round_aux_zeros s m 52 (e + k - 52) ltac:(lia) HE)
    as (Hr & _ & Hq).
  fold d in Hr, Hq.
  set (E := fexp (d + 52 + (e + k - 52))) in *.
  set (q := Z.to_pos (Z.pos m * 2 ^ (e + k - 52 + 52 - E))) in *.
  exists q, E. split; [| split].
  - cbn [SFmul pow2_sf]. rewrite Bool.xorb_false_r.
    rewrite Pos2Z.inj_mul. change (Z.pos 4503599627370496) with (2 ^ 52).
    replace (e + (k - 52)) with (e + k - 52) by lia. exact Hr.
  - unfold E. rewrite fexp_eq. lia.
  - rewrite Hq. assert (-1074 <= E) by (unfold E; rewrite fexp_eq; lia).
    rewrite <- Z.mul_assoc, <- Z.pow_add_r by lia.
    rewrite (Z.mul_comm (2 ^ k)), <- Z.mul_assoc, <- Z.pow_add_r by lia.
    do 2 f_equal. lia.
Qed.

(** Dividing by [2 ^ k] divides the value by [2 ^ k], when the exponent
    stays in the format. *)
Lemma SFdiv_pow2 (s : bool) (m : positive) (e k : Z) :
  bounded m e = true -> 0 <= k -> k - 1074 <= e ->
  exists (q : positive) (E : Z),
    SFdiv prec emax (S754_finite s m e) (pow2_sf k) = S754_finite s q E
    /\ bounded q E = true
    /\ 2 ^ k * (Z.pos q * 2 ^ (E + 1074)) = Z.pos m * 2 ^ (e + 1074).
Proof.
  intros Hb Hk Hek. apply bounded_inv in Hb as (Hc & He & Hd).
  rewrite fexp_eq in Hc.
  set (d := Z.pos (digits2_pos m)) in *.
  assert (Hd1 : 1 <= d) by (unfold d; lia).
  set (F := fexp (d + e - (53 + (k - 52)))).
  assert (HF : F = Z.max (d + e - k - 54) (-1074))
    by (unfold F; rewrite fexp_eq; lia).
  assert (Hcore : SFdiv_core_binary prec emax (Z.pos m) e
                    (Z.pos 4503599627370496) (k - 52)
                  = (Z.pos m * 2 ^ (e - k - F), F, loc_Exact)).
  { unfold SFdiv_core_binary.
    change (Zdigits2 (Z.pos 4503599627370496)) with 53.
    cbn [Zdigits2]. fold d. fold F.
    rewrite (Z.min_l F) by lia.
    destruct (e - (k - 52) - F) as [| p | p] eqn:Hs; try lia.
    rewrite Z.shiftl_mul_pow2 by lia. rewrite <- Hs.
    replace (e - (k - 52) - F) with (e - k - F + 52) by lia.
    rewrite Z.pow_add_r by lia.
    change (2 ^ 52) with 4503599627370496. rewrite Z.mul_assoc.
    pose proof (Z.div_mul (Z.pos m * 2 ^ (e - k - F)) 4503599627370496
                  ltac:(lia)) as Hdiv.
    pose proof (Z.mod_mul (Z.pos m * 2 ^ (e - k - F)) 4503599627370496
                  ltac:(lia)) as Hmod.
    unfold Z.div, Z.modulo in Hdiv, Hmod.
    destruct (Z.div_eucl _ _) as [q r]. cbn [fst snd] in Hdiv, Hmod.
    subst q r. reflexivity. }
  assert (HE : F <= fexp (d + (e - k - F) + F) <= F + (e - k - F))
    by (rewrite fexp_eq; lia).
  destruct (binary_round_aux_zeros s m (e - k - F) F ltac:(lia) HE)
    as (Hr & Hcan & Hq).
  fold d in Hr, Hcan, Hq.
  set (E := fexp (d + (e - k - F) + F)) in *.
  set (q := Z.to_pos (Z.pos m * 2 ^ (F + (e - k - F) - E))) in *.
  assert (HE' : -1074 <= E <= 971) by (unfold E; rewrite fexp_eq; lia).
  exists q, E. split; [| split].
  - cbn [SFdiv pow2_sf]. rewrite Hcore, Bool.xorb_false_r, Hr.
    destruct (Z.leb_spec E 971); [reflexivity | lia].
  - apply bounded_intro; [exact Hcan | lia].
  - rewrite Hq.
    replace (F + (e - k - F) - E) with (e - k - E)
      by lia.
    assert (0 <= e - k - E) by (unfold E; rewrite fexp_eq; lia).
    rewrite <- !Z.mul_assoc, <- Z.pow_add_r by lia.
    rewrite (Z.mul_comm (2 ^ k)), <- Z.mul_assoc, <- Z.pow_add_r by lia.
    do 2 f_equal. lia.
Qed.

(** Addition of two positive numbers whose sum lies on a grid of the
    format. *)
Lemma SFadd_grid (mx : positive) (ex : Z) (my : positive) (ey g : Z) :
  bounded mx ex = true -> bounded my ey = true ->
  -1074 <= g <= 971 ->
  (2 ^ (g + 1074) | Z.pos mx * 2 ^ (ex + 1074)) ->
  (2 ^ (g + 1074) | Z.pos my * 2 ^ (ey + 1074)) ->
  Z.pos mx * 2 ^ (ex + 1074) + Z.pos my * 2 ^ (ey + 1074)
    < 2 ^ (53 + g + 1074) ->
  exists (q : positive) (E : Z),
    SFadd prec emax (S754_finite false mx ex) (S754_finite false my ey)
    = S754_finite false q E
    /\ bounded q E = true
    /\ Z.pos q * 2 ^ (E + 1074)
       = Z.pos mx * 2 ^ (ex + 1074) + Z.pos my * 2 ^ (ey + 1074).
Proof.
  intros Hbx Hby Hg Hdx Hdy Hlt.
  apply bounded_inv in Hbx as (_ & Hex & _).
  apply bounded_inv in Hby as (_ & Hey & _).
  set (ez := Z.min ex ey).
  assert (Hez : -1074 <= ez /\ ez <= ex /\ ez <= ey) by (unfold ez; lia).
  pose proof (pow2_pos (ex - ez) ltac:(lia)) as Hpx.
  pose proof (pow2_pos (ey - ez) ltac:(lia)) as Hpy.
  pose proof (pow2_pos (ez + 1074) ltac:(lia)) as Hpz.
  set (a := Z.to_pos (Z.pos mx * 2 ^ (ex - ez))).
  set (b := Z.to_pos (Z.pos my * 2 ^ (ey - ez))).
  assert (Ha : Z.pos a = Z.pos mx * 2 ^ (ex - ez))
    by (unfold a; apply Zpos_to_pos; nia).
  assert (Hb : Z.pos b = Z.pos my * 2 ^ (ey - ez))
    by (unfold b; apply Zpos_to_pos; nia).
  assert (Hsum : Z.pos (a + b) * 2 ^ (ez + 1074)
                 = Z.pos mx * 2 ^ (ex + 1074) + Z.pos my * 2 ^ (ey + 1074)).
  { rewrite Pos2Z.inj_add, Ha, Hb.
    rewrite (pow2_split (ez + 1074) (ex + 1074)) by lia.
    rewrite (pow2_split (ez + 1074) (ey + 1074)) by lia.
    replace (ex + 1074 - (ez + 1074)) with (ex - ez) by lia.
    replace (ey + 1074 - (ez + 1074)) with (ey - ez) by lia. ring. }
  assert (Hr : SFadd prec emax (S754_finite false mx ex)
                 (S754_finite false my ey)
               = binary_round prec emax false (a + b) ez).
  { cbn [SFadd cond_Zopp]. fold ez.
    rewrite !shl_align_value by lia. cbn [fst]. fold a b. reflexivity. }
  destruct (binary_round_grid false (a + b) ez g) as (q & E & H1 & H2 & H3);
    try lia.
  - intros Hle.
    apply (Z.mul_divide_cancel_r _ _ (2 ^ (ez + 1074))); [lia |].
    rewrite <- Z.pow_add_r by lia.
    replace (g - ez + (ez + 1074)) with (g + 1074) by lia.
    rewrite Hsum. apply Z.divide_add_r; assumption.
  - exists q, E. rewrite Hr, H1, H3, Hsum. auto.
Qed.

(** Order *)

(** The order of two positive floats is the order of their values. *)
Lemma compare_bounded (m1 : positive) (e1 : Z) (m2 : positive) (e2 : Z) :
  bounded m1 e1 = true -> bounded m2 e2 = true ->
  match e1 ?= e2 with
  | Lt => Lt
  | Gt => Gt
  | Eq => Pos.compare_cont Eq m1 m2
  end
  = (Z.pos m1 * 2 ^ (e1 + 1074) ?= Z.pos m2 * 2 ^ (e2 + 1074)).
Proof.
  intros H1 H2.
  apply bounded_inv in H1 as (Hc1 & He1 & Hd1).
  apply bounded_inv in H2 as (Hc2 & He2 & Hd2).
  rewrite fexp_eq in Hc1, Hc2.
  pose proof (digits2_pos_bounds m1) as [Hl1 Hu1].
  pose proof (digits2_pos_bounds m2) as [Hl2 Hu2].
  pose proof (pow2_pos (e1 + 1074) ltac:(lia)) as Hp1.
  pose proof (pow2_pos (e2 + 1074) ltac:(lia)) as Hp2.
  assert (Hbig : forall (m m' : positive) (e e' : Z),
            -1074 <= e < e' ->
            Z.max (Z.pos (digits2_pos m') + e' - 53) (-1074) = e' ->
            Z.pos (digits2_pos m) <= 53 ->
            Z.pos m * 2 ^ (e + 1074) < Z.pos m' * 2 ^ (e' + 1074)).
  { intros m m' e e' He Hc Hd.
    pose proof (digits2_pos_bounds m) as [_ Hu].
    pose proof (digits2_pos_bounds m') as [Hl _].
    assert (Hd' : Z.pos (digits2_pos m') = 53) by lia.
    rewrite Hd' in Hl. change (2 ^ (53 - 1)) with 4503599627370496 in Hl.
    assert (Z.pos m < 9007199254740992).
    { change 9007199254740992 with (2 ^ 53).
      apply Z.lt_le_trans with (1 := Hu). apply Z.pow_le_mono_r; lia. }
    pose proof (pow2_pos (e + 1074) ltac:(lia)) as Hp.
    assert (2 * 2 ^ (e + 1074) <= 2 ^ (e' + 1074)).
    { rewrite <- Z.pow_succ_r by lia. apply Z.pow_le_mono_r; lia. }
    nia. }
  destruct (Z.compare_spec e1 e2) as [Heq | Hlt | Hgt].
  - subst e2. rewrite <- Zmult_compare_compat_r by lia. reflexivity.
  - symmetry. apply Z.compare_lt_iff. apply Hbig; lia.
  - symmetry. apply Z.compare_gt_iff. apply Hbig; lia.
Qed.

(** The comparison of the format is the comparison of the values. *)
Lemma SFcompare_scaled (x y : spec_float) :
  valid_binary x = true -> valid_binary y = true ->
  finite_sf x = true -> finite_sf y = true ->
  SFcompare x y = Some (scaled_sf x ?= scaled_sf y).
Proof.
  intros Hx Hy Fx Fy.
  destruct x as [sx | sx | | sx mx ex]; try discriminate Fx;
  destruct y as [sy | sy | | sy my ey]; try discriminate Fy;
  cbn [SFcompare scaled_sf valid_binary] in *.
  - reflexivity.
  - pose proof (pow2_pos (ey + 1074)
      ltac:(apply bounded_inv in Hy; lia)) as Hp.
    destruct sy; cbn [cond_Zopp]; f_equal; symmetry.
    + apply Z.compare_gt_iff. nia.
    + apply Z.compare_lt_iff. nia.
  - pose proof (pow2_pos (ex + 1074)
      ltac:(apply bounded_inv in Hx; lia)) as Hp.
    destruct sx; cbn [cond_Zopp]; f_equal; symmetry.
    + apply Z.compare_lt_iff. nia.
    + apply Z.compare_gt_iff. nia.
  - pose proof (pow2_pos (ex + 1074)
      ltac:(apply bounded_inv in Hx; lia)) as Hpx.
    pose proof (pow2_pos (ey + 1074)
      ltac:(apply bounded_inv in Hy; lia)) as Hpy.
    destruct sx, sy; cbn [cond_Zopp]; f_equal.
    + rewrite Z.compare_opp.
      rewrite <- (compare_bounded my ey mx ex Hy Hx).
      rewrite (Z.compare_antisym ey ex).
      destruct (ey ?= ex); cbn [CompOpp]; try reflexivity.
      rewrite (Pos.compare_cont_antisym mx my Eq). reflexivity.
    + symmetry. apply Z.compare_lt_iff. nia.
    + symmetry. apply Z.compare_gt_iff. nia.
    + apply compare_bounded; assumption.
Qed.

(** ** The primitive operations *)

Lemma compare_scaled (x y : float) :
  is_finite x = true -> is_finite y = true ->
  SFcompare (Prim2SF x) (Prim2SF y) = Some (scaled x ?= scaled y).
Proof.
  intros Hx Hy. apply SFcompare_scaled; auto using Prim2SF_valid.
Qed.

Lemma ltb_scaled (x y : float) :
  is_finite x = true -> is_finite y = true ->
  (x <? y)%float = (scaled x <? scaled y).
Proof.
  intros Hx Hy. rewrite FloatAxioms.ltb_spec. unfold SFltb.
  rewrite compare_scaled by assumption. unfold Z.ltb.
  destruct (scaled x ?= scaled y); reflexivity.
Qed.

Lemma cond_Zopp_mul (s : bool) (a b : Z) :
  cond_Zopp s (a * b) = a * cond_Zopp s b.
Proof. destruct s; cbn [cond_Zopp]; lia. Qed.

(** [x * 2 ^ k] is exact unless it overflows. *)
Lemma mul_pow2 (x c : float) (k : Z) :
  Prim2SF c = pow2_sf k -> 0 <= k <= 52 ->
  is_finite (x * c) = true ->
  is_finite x = true /\ scaled (x * c) = 2 ^ k * scaled x.
Proof.
  unfold is_finite, scaled. rewrite FloatAxioms.mul_spec. intros Hc Hk. rewrite Hc.
  pose proof (Prim2SF_valid x) as Hv.
  destruct (Prim2SF x) as [s | s | | s m e].
  - intros _. cbn. split; [reflexivity | lia].
  - cbn. discriminate.
  - cbn. discriminate.
  - unfold SF64mul. cbn [valid_binary] in Hv.
    destruct (SFmul_pow2 s m e k Hv Hk) as (q & E & Hr & HE & Hq).
    rewrite Hr.
    destruct (E <=? 971); cbn [finite_sf scaled_sf]; [| discriminate].
    intros _. split; [reflexivity |].
    rewrite Hq. apply cond_Zopp_mul.
Qed.

Lemma float_of_int_0 : Prim2SF (float_of_int 0) = S754_zero false.
Proof. reflexivity. Qed.

(** [float(n)] is [n] when a float holds [n]. *)
Lemma float_of_int_spec (n : Z) :
  float_int n -> n <> 0 ->
  exists (q : positive) (E : Z),
    Prim2SF (float_of_int n) = S754_finite (n <? 0) q E
    /\ bounded q E = true
    /\ Z.pos q * 2 ^ (E + 1074) = Z.abs n * 2 ^ 1074
    /\ -52 <= E.
Proof.
  intros (g & Hg & Hdiv & Hlt) Hn.
  assert (Hm : exists m : positive, Z.abs n = Z.pos m
             /\ binary_normalize prec emax n 0 false
                = binary_round prec emax (n <? 0) m 0).
  { destruct n as [| p | p]; [contradiction | |]; exists p; split;
      reflexivity. }
  destruct Hm as (m & Habs & Hnorm).
  assert (Hdiv' : (2 ^ g | Z.pos m)).
  { rewrite <- Habs. apply Z.divide_abs_r. exact Hdiv. }
  destruct (binary_round_grid (n <? 0) m 0 g) as (q & E & H1 & H2 & H3);
    try lia.
  - intros _. rewrite Z.sub_0_r. exact Hdiv'.
  - rewrite <- Habs. rewrite (Z.pow_add_r 2 (53 + g) 1074) by lia.
    rewrite Z.add_0_l. apply Z.mul_lt_mono_pos_r; [| exact Hlt].
    apply pow2_pos. lia.
  - exists q, E. unfold float_of_int.
    rewrite Hnorm, H1, Prim2SF_SF2Prim by exact H2.
    split; [reflexivity |]. split; [exact H2 |].
    rewrite H3, Habs. cbn [Z.add]. split; [reflexivity |].
    apply bounded_inv in H2 as (_ & HE & Hd).
    pose proof (digits2_pos_bounds q) as [_ Hu].
    assert (Hq : Z.pos q < 2 ^ 53).
    { apply Z.lt_le_trans with (1 := Hu). apply Z.pow_le_mono_r; lia. }
    destruct (Z.le_gt_cases (-52) E) as [Hle | Hgt]; [exact Hle | exfalso].
    cbn [Z.add] in H3.
    assert (Hp : 2 ^ (E + 1074) * 2 ^ 53 <= 2 ^ 1074).
    { rewrite <- Z.pow_add_r by lia. apply Z.pow_le_mono_r; lia. }
    pose proof (pow2_pos (E + 1074) ltac:(lia)).
    pose proof (pow2_pos 1074 ltac:(lia)).
    assert (1 <= Z.pos m) by lia. nia.
Qed.

(** [n / 2 ^ k] for an integer a float holds. *)
Lemma int_div_pow2 (n d k : Z) :
  float_int n -> Prim2SF (float_of_int d) = pow2_sf k -> 0 <= k <= 1000 ->
  is_finite (int_div n d) = true
  /\ 2 ^ k * scaled (int_div n d) = n * 2 ^ 1074.
Proof.
  intros Hn Hd Hk. unfold int_div, is_finite, scaled.
  rewrite FloatAxioms.div_spec, Hd. unfold SF64div.
  destruct (Z.eq_dec n 0) as [-> | Hne].
  - rewrite float_of_int_0. cbn. split; [reflexivity | lia].
  - destruct (float_of_int_spec n Hn Hne) as (q & E & Hr & Hb & Hv & HE).
    rewrite Hr.
    destruct (SFdiv_pow2 (n <? 0) q E k Hb ltac:(lia) ltac:(lia))
      as (q' & E' & Hr' & _ & Hv').
    rewrite Hr'. cbn [finite_sf scaled_sf]. split; [reflexivity |].
    rewrite <- cond_Zopp_mul, Hv', Hv.
    destruct (Z.ltb_spec n 0); cbn [cond_Zopp]; lia.
Qed.

(** Exact addition of two positive floats. *)
Lemma add_grid (x y : float) (g : Z) :
  is_finite x = true -> is_finite y = true ->
  0 < scaled x -> 0 < scaled y -> -1074 <= g <= 971 ->
  (2 ^ (g + 1074) | scaled x) -> (2 ^ (g + 1074) | scaled y) ->
  scaled x + scaled y < 2 ^ (53 + g + 1074) ->
  is_finite (x + y) = true /\ scaled (x + y) = scaled x + scaled y.
Proof.
  unfold is_finite, scaled. rewrite FloatAxioms.add_spec. unfold SF64add.
  pose proof (Prim2SF_valid x) as Hvx. pose proof (Prim2SF_valid y) as Hvy.
  destruct (Prim2SF x) as [sx | sx | | sx mx ex]; try discriminate;
    cbn [scaled_sf]; try lia.
  destruct (Prim2SF y) as [sy | sy | | sy my ey]; try discriminate;
    cbn [scaled_sf]; try lia.
  cbn [valid_binary] in Hvx, Hvy.
  pose proof (pow2_pos (ex + 1074)
    ltac:(apply bounded_inv in Hvx; lia)) as Hpx.
  pose proof (pow2_pos (ey + 1074)
    ltac:(apply bounded_inv in Hvy; lia)) as Hpy.
  intros _ _ Hx Hy Hg Hdx Hdy Hlt.
  destruct sx; cbn [cond_Zopp] in *; [nia |].
  destruct sy; cbn [cond_Zopp] in *; [nia |].
  destruct (SFadd_grid mx ex my ey g Hvx Hvy Hg Hdx Hdy Hlt)
    as (q & E & Hr & _ & Hv).
  rewrite Hr. cbn [finite_sf scaled_sf cond_Zopp]. auto.
Qed.

(** ** ceil and round *)

Lemma mantissa_exponent_spec (x : float) (a e : Z) :
  mantissa_exponent x = Return (a, e) ->
  is_finite x = true /\ scaled x = a * 2 ^ (e + 1074)
  /\ -1074 <= e <= 971 /\ Z.abs a < 2 ^ 53.
Proof.
  unfold mantissa_exponent, is_finite, scaled.
  pose proof (Prim2SF_valid x) as Hv.
  destruct (Prim2SF x) as [s | s | | s m e']; try discriminate;
    intros [= <- <-].
  - cbn. repeat split; lia.
  - cbn [valid_binary] in Hv. apply bounded_inv in Hv as (_ & He & Hd).
    cbn [finite_sf scaled_sf]. split; [reflexivity |].
    split; [destruct s; cbn [cond_Zopp]; lia |]. split; [exact He |].
    pose proof (digits2_pos_bounds m) as [_ Hu].
    assert (Z.pos m < 2 ^ 53).
    { apply Z.lt_le_trans with (1 := Hu). apply Z.pow_le_mono_r; lia. }
    destruct s; cbn [cond_Zopp]; lia.
Qed.

Lemma float_int_small (n : Z) : Z.abs n < 2 ^ 53 -> float_int n.
Proof.
  intros H. exists 0. split; [lia |]. split.
  - rewrite Z.pow_0_r. apply Z.divide_1_l.
  - rewrite Z.add_0_r. exact H.
Qed.

Lemma float_int_shift (a e : Z) :
  Z.abs a < 2 ^ 53 -> 0 <= e <= 971 -> float_int (a * 2 ^ e).
Proof.
  intros Ha He. exists e. split; [exact He |]. split.
  - apply Z.divide_factor_r.
  - pose proof (pow2_pos e ltac:(lia)).
    rewrite Z.abs_mul, (Z.abs_eq (2 ^ e)) by lia.
    rewrite Z.pow_add_r by lia. nia.
Qed.

(** The integer part of a float that is not an integer has at most 52
    bits. *)
Lemma quotient_small (a T q : Z) :
  Z.abs a < 2 ^ 53 -> 2 <= T -> q = a / T \/ q = - (- a / T) ->
  Z.abs q <= 2 ^ 52.
Proof.
  intros Ha HT Hq. change (2 ^ 53) with 9007199254740992 in Ha.
  change (2 ^ 52) with 4503599627370496.
  pose proof (Z.div_mod a T ltac:(lia)) as H1.
  pose proof (Z.mod_pos_bound a T ltac:(lia)) as H2.
  pose proof (Z.div_mod (- a) T ltac:(lia)) as H3.
  pose proof (Z.mod_pos_bound (- a) T ltac:(lia)) as H4.
  destruct Hq as [-> | ->]; nia.
Qed.

(** [ceil x] is the least integer that is not below [x]. *)
Lemma ceil_spec (x : float) (n : Z) :
  ceil x = Return n ->
  is_finite x = true /\ float_int n
  /\ (n - 1) * 2 ^ 1074 < scaled x <= n * 2 ^ 1074.
Proof.
  unfold ceil. destruct (mantissa_exponent x) as [[a e] | ex] eqn:Hme;
    [| discriminate].
  apply mantissa_exponent_spec in Hme as (Hf & Hs & He & Ha).
  cbn [bind]. intros [= <-]. split; [exact Hf |]. rewrite Hs.
  destruct (Z.leb_spec 0 e) as [Hpos | Hneg].
  - split; [apply float_int_shift; lia |].
    rewrite Z.pow_add_r by lia.
    pose proof (pow2_pos e ltac:(lia)). pose proof (pow2_pos 1074 ltac:(lia)).
    nia.
  - assert (HT : 2 <= 2 ^ (- e)).
    { change 2 with (2 ^ 1) at 1. apply Z.pow_le_mono_r; lia. }
    split.
    + apply float_int_small.
      pose proof (quotient_small a (2 ^ (- e)) (- (- a / 2 ^ (- e))) Ha HT
                    ltac:(auto)).
      change (2 ^ 53) with 9007199254740992.
      change (2 ^ 52) with 4503599627370496 in H. lia.
    + rewrite (pow2_split (e + 1074) 1074) by lia.
      replace (1074 - (e + 1074)) with (- e) by lia.
      pose proof (pow2_pos (e + 1074) ltac:(lia)) as HU.
      pose proof (Z.div_mod (- a) (2 ^ (- e)) ltac:(lia)) as H3.
      pose proof (Z.mod_pos_bound (- a) (2 ^ (- e)) ltac:(lia)) as H4.
      nia.
Qed.

End Binary64Format.

(** * Binary64: the values of floats as real numbers *)

Section Binary64Values.

Import Binary64.

#[local] Open Scope R_scope.

Lemma ulp_min_pos : 0 < ulp_min.
Proof. apply IZR_lt. apply pow2_pos. lia. Qed.

Lemma IZR_pow2 (n : Z) : (0 <= n)%Z -> IZR (2 ^ n) = powerRZ 2 n.
Proof.
  intros Hn. destruct n as [| p | p]; try lia.
  - reflexivity.
  - change (2 ^ Z.pos p)%Z with (Z.pow_pos 2 p).
    apply Zpower_pos_powerRZ.
Qed.

(** The value of a float, from its integer in units of 2^-1074. *)
Lemma B2R_scaled (x : float) : B2R x = IZR (scaled x) / ulp_min.
Proof.
  unfold B2R, scaled, ulp_min. pose proof (Prim2SF_valid x) as Hv.
  pose proof ulp_min_pos as Hu. unfold ulp_min in Hu.
  destruct (Prim2SF x) as [s | s | | s m e]; cbn [scaled_sf];
    try (unfold Rdiv; rewrite Rmult_0_l; reflexivity).
  cbn [valid_binary] in Hv. apply bounded_inv in Hv as (_ & He & _).
  replace (cond_Zopp s (Z.pos m * 2 ^ (e + 1074)))
    with (cond_Zopp s (Z.pos m) * 2 ^ (e + 1074))%Z
    by (destruct s; cbn [cond_Zopp]; lia).
  rewrite mult_IZR, !IZR_pow2 by lia.
  rewrite powerRZ_add by lra.
  field. apply powerRZ_NOR. lra.
Qed.

Lemma scaled_B2R (x : float) : IZR (scaled x) = B2R x * ulp_min.
Proof.
  rewrite B2R_scaled. pose proof ulp_min_pos. field. lra.
Qed.

(** The comparisons of finite floats are those of their values. *)
Lemma ltb_B2R (x y : float) :
  is_finite x = true -> is_finite y = true ->
  ((x <? y)%float = true <-> B2R x < B2R y).
Proof.
  intros Hx Hy. rewrite ltb_scaled by assumption.
  rewrite Z.ltb_lt, !B2R_scaled. pose proof ulp_min_pos as Hu. split.
  - intros H. apply IZR_lt in H. unfold Rdiv.
    apply Rmult_lt_compat_r; [apply Rinv_0_lt_compat; exact Hu | exact H].
  - intros H. apply lt_IZR.
    apply (Rmult_lt_reg_r (/ ulp_min));
      [apply Rinv_0_lt_compat; exact Hu | exact H].
Qed.

Lemma ltb_false_B2R (x y : float) :
  is_finite x = true -> is_finite y = true ->
  ((x <? y)%float = false <-> B2R y <= B2R x).
Proof.
  intros Hx Hy. pose proof (ltb_B2R x y Hx Hy) as H.
  destruct (x <? y)%float; split; intros H'; try reflexivity;
    try discriminate.
  - apply proj1 in H. specialize (H eq_refl). lra.
  - apply Rnot_lt_le. intros Hlt. apply H in Hlt. discriminate.
Qed.

Lemma B2R_mul_pow2 (x c : float) (k : Z) :
  Prim2SF c = pow2_sf k -> (0 <= k <= 52)%Z ->
  is_finite (x * c) = true ->
  is_finite x = true /\ B2R (x * c) = B2R x * IZR (2 ^ k).
Proof.
  intros Hc Hk Hf. destruct (mul_pow2 x c k Hc Hk Hf) as [Hx Hs].
  split; [exact Hx |]. rewrite !B2R_scaled, Hs, mult_IZR.
  pose proof ulp_min_pos. field. lra.
Qed.

Lemma B2R_int_div_pow2 (n d k : Z) :
  float_int n -> Prim2SF (float_of_int d) = pow2_sf k -> (0 <= k <= 1000)%Z ->
  is_finite (int_div n d) = true
  /\ B2R (int_div n d) = IZR n / IZR (2 ^ k).
Proof.
  intros Hn Hd Hk. destruct (int_div_pow2 n d k Hn Hd Hk) as [Hf Hs].
  split; [exact Hf |]. rewrite B2R_scaled.
  apply (f_equal IZR) in Hs. rewrite !mult_IZR in Hs. fold ulp_min in Hs.
  pose proof ulp_min_pos.
  assert (0 < IZR (2 ^ k)) by (apply IZR_lt, pow2_pos; lia).
  apply (Rmult_eq_reg_l (IZR (2 ^ k))); [| lra].
  unfold Rdiv. rewrite <- Rmult_assoc, Hs. field. lra.
Qed.

(** [ceil] and [round] on a float are [Zceil] and the [round] of the
    exact-arithmetic model on its value, and the integer they give is one
    a float holds. *)
Lemma ceil_Zceil (x : float) (n : Z) :
  ceil x = Return n ->
  is_finite x = true /\ float_int n /\ n = Zceil (B2R x).
Proof.
  intros H. apply ceil_spec in H as (Hf & Hi & Hl & Hu).
  split; [exact Hf |]. split; [exact Hi |]. symmetry. apply Zceil_eq.
  rewrite B2R_scaled. pose proof ulp_min_pos as Hp.
  apply IZR_lt in Hl. apply IZR_le in Hu.
  rewrite mult_IZR in Hl, Hu. rewrite minus_IZR in Hl. fold ulp_min in Hl, Hu.
  split.
  - apply (Rmult_lt_reg_r ulp_min); [exact Hp |].
    replace (IZR (scaled x) / ulp_min * ulp_min) with (IZR (scaled x))
      by (field; lra). exact Hl.
  - apply (Rmult_le_reg_r ulp_min); [exact Hp |].
    replace (IZR (scaled x) / ulp_min * ulp_min) with (IZR (scaled x))
      by (field; lra). exact Hu.
Qed.

Lemma round_spec (x : float) (n : Z) :
  round x = Return n ->
  is_finite x = true /\ float_int n
  /\ n = Py.round (B2R x)
  /\ (IZR n = B2R x \/ (Z.abs n <= 2 ^ 52)%Z).
Proof.
  unfold round. destruct (mantissa_exponent x) as [[a e] | ex] eqn:Hme;
    [| discriminate].
  apply mantissa_exponent_spec in Hme as (Hf & Hs & He & Ha).
  unfold bind. intros Hn. apply (f_equal (fun r => match r with Return z => z | Raise _ => 0%Z end)) in Hn.
  subst n. split; [exact Hf |].
  pose proof ulp_min_pos as Hu.
  destruct (Z.leb_spec 0 e) as [Hpos | Hneg].
  - assert (Hx : B2R x = IZR (a * 2 ^ e)).
    { rewrite B2R_scaled, Hs, (Z.pow_add_r 2 e 1074) by lia.
      rewrite Z.mul_assoc, (mult_IZR (a * 2 ^ e)). fold ulp_min.
      field. lra. }
    split; [apply float_int_shift; lia |]. split; [| left; now rewrite Hx].
    symmetry. apply round_eq. rewrite Hx. lra.
  - cbv zeta. set (T := (2 ^ (- e))%Z).
    assert (HT : (2 <= T)%Z).
    { unfold T. change 2%Z with (2 ^ 1)%Z at 1.
      apply Z.pow_le_mono_r; lia. }
    assert (HTR : 0 < IZR T) by (apply IZR_lt; lia).
    pose proof (Z.div_mod a T ltac:(lia)) as Hdm.
    pose proof (Z.mod_pos_bound a T ltac:(lia)) as Hmod.
    set (f := (a / T)%Z) in *. set (dd := (a mod T)%Z) in *.
    assert (Hx : B2R x = IZR f + IZR dd / IZR T).
    { rewrite B2R_scaled, Hs. unfold ulp_min.
      rewrite (pow2_split (e + 1074) 1074) by lia.
      replace (1074 - (e + 1074))%Z with (- e)%Z by lia. fold T.
      rewrite Hdm at 1. rewrite !mult_IZR, plus_IZR, mult_IZR.
      assert (0 < IZR (2 ^ (e + 1074)))
        by (apply IZR_lt, pow2_pos; lia).
      field. lra. }
    assert (Hq : (Z.abs f <= 2 ^ 52)%Z)
      by (apply (quotient_small a T); auto).
    assert (Hfloor : Zfloor (B2R x) = f).
    { apply Zfloor_eq. rewrite Hx. destruct Hmod as [H0 H1].
      apply IZR_le in H0. apply IZR_lt in H1. split.
      - assert (0 <= IZR dd / IZR T)
          by (apply Rmult_le_pos;
              [exact H0 | left; apply Rinv_0_lt_compat; exact HTR]).
        lra.
      - assert (IZR dd / IZR T < 1).
        { apply (Rmult_lt_reg_r (IZR T)); [exact HTR |].
          replace (IZR dd / IZR T * IZR T) with (IZR dd) by (field; lra).
          lra. }
        lra. }
    assert (Hd : B2R x - IZR f = IZR dd / IZR T) by (rewrite Hx; lra).
    assert (Hhalf : forall r : R, r * IZR T = IZR dd ->
              (r < 1 / 2 <-> (2 * dd < T)%Z)
              /\ (r > 1 / 2 <-> (T < 2 * dd)%Z)).
    { intros r Hr. split; split; intros H.
      - apply lt_IZR. rewrite mult_IZR, <- Hr. nra.
      - apply IZR_lt in H. rewrite mult_IZR, <- Hr in H. nra.
      - apply lt_IZR. rewrite mult_IZR, <- Hr. nra.
      - apply IZR_lt in H. rewrite mult_IZR, <- Hr in H. nra. }
    destruct (Hhalf (B2R x - IZR f)) as [Hlt Hgt].
    { rewrite Hd. field. lra. }
    assert (Hres : (if (2 * dd <? T)%Z then f
                    else if (T <? 2 * dd)%Z then (f + 1)%Z
                    else if Z.even f then f else (f + 1)%Z)
                   = Py.round (B2R x)).
    { unfold Py.round. rewrite Hfloor.
      destruct (Z.ltb_spec (2 * dd) T) as [H1 | H1].
      - destruct (Rlt_dec _ _) as [_ | Hn]; [reflexivity |].
        exfalso. apply Hn, Hlt, H1.
      - destruct (Rlt_dec _ _) as [Hy | _].
        { apply Hlt in Hy. lia. }
        destruct (Z.ltb_spec T (2 * dd)) as [H2 | H2].
        + destruct (Rgt_dec _ _) as [_ | Hn]; [reflexivity |].
          exfalso. apply Hn, Hgt, H2.
        + destruct (Rgt_dec _ _) as [Hy | _]; [| reflexivity].
          apply Hgt in Hy. lia. }
    rewrite Hres. split; [| split; [reflexivity |]].
    + apply float_int_small. rewrite <- Hres.
      change (2 ^ 53)%Z with 9007199254740992%Z.
      change (2 ^ 52)%Z with 4503599627370496%Z in Hq.
      destruct (2 * dd <? T)%Z; [lia |].
      destruct (T <? 2 * dd)%Z; [lia |]. destruct (Z.even f); lia.
    + right. rewrite <- Hres.
      change (2 ^ 52)%Z with 4503599627370496%Z in *.
      assert (Hf1 : (Z.abs (f + 1) <= 4503599627370496)%Z).
      { destruct (Z.eq_dec f 4503599627370496) as [Heq | Hne]; [| lia].
        exfalso. change (2 ^ 53)%Z with 9007199254740992%Z in Ha.
        rewrite Heq in Hdm. nia. }
      destruct (2 * dd <? T)%Z; [lia |].
      destruct (T <? 2 * dd)%Z; [lia |]. destruct (Z.even f); lia.
Qed.

End Binary64Values.

(** * Binary64: the roundings of calculate_plates *)

Section Binary64Rounding.

Import Binary64.

Lemma Return_inj {A : Type} (a b : A) : Return a = Return b -> a = b.
Proof. intros H. injection H as H. exact H. Qed.

Lemma four_pow2 : Prim2SF 4 = pow2_sf 2.
Proof. reflexivity. Qed.

Lemma eight_pow2 : Prim2SF 8 = pow2_sf 3.
Proof. reflexivity. Qed.

Lemma float_of_int_4 : Prim2SF (float_of_int 4) = pow2_sf 2.
Proof. reflexivity. Qed.

Lemma float_of_int_8 : Prim2SF (float_of_int 8) = pow2_sf 3.
Proof. reflexivity. Qed.

(** The value of a float with a negative exponent. *)
Lemma B2R_finite (x : float) (s : bool) (m : positive) (e : Z) :
  Prim2SF x = S754_finite s m e -> (e < 0)%Z ->
  B2R x = IZR (cond_Zopp s (Z.pos m)) / IZR (2 ^ (- e)).
Proof.
  intros Hx He. unfold B2R. rewrite Hx.
  replace e with (- - e)%Z at 1 by lia.
  rewrite powerRZ_neg', <- IZR_pow2 by lia. reflexivity.
Qed.

Lemma B2R_0375 : B2R 0.375 = 0.375.
Proof.
  rewrite (B2R_finite 0.375 false 6755399441055744 (-54));
    [| reflexivity | lia].
  cbn [cond_Zopp]. change (2 ^ (- -54))%Z with 18014398509481984%Z. lra.
Qed.

Lemma B2R_0125 : B2R 0.125 = 0.125.
Proof.
  rewrite (B2R_finite 0.125 false 4503599627370496 (-55));
    [| reflexivity | lia].
  cbn [cond_Zopp]. change (2 ^ (- -55))%Z with 36028797018963968%Z. lra.
Qed.

(** [max] on finite floats is the maximum of the values. *)
Lemma max_finite (a b : float) :
  is_finite a = true -> is_finite b = true ->
  is_finite (max a b) = true /\ B2R (max a b) = Rmax (B2R a) (B2R b).
Proof.
  intros Ha Hb. unfold max.
  destruct (a <? b)%float eqn:Hlt.
  - apply ltb_B2R in Hlt; try assumption.
    split; [exact Hb |]. rewrite Rmax_right by lra. reflexivity.
  - apply ltb_false_B2R in Hlt; try assumption.
    split; [exact Ha |]. rewrite Rmax_left by lra. reflexivity.
Qed.

(** One eighth more, on the grid of eighths. *)
Lemma B2R_add_eighth (t : float) (j : Z) :
  is_finite t = true -> B2R t = IZR j / 8 ->
  (0 < j < 2 ^ 53 - 1)%Z ->
  is_finite (t + 0.125) = true /\ B2R (t + 0.125) = B2R t + 0.125.
Proof.
  intros Ht Hj Hjb.
  pose proof ulp_min_pos as Hu.
  assert (Hsplit : (2 ^ 1074 = 8 * 2 ^ 1071)%Z)
    by (change 8%Z with (2 ^ 3)%Z; rewrite <- Z.pow_add_r by lia;
        reflexivity).
  assert (Hp : (0 < 2 ^ 1071)%Z) by (apply pow2_pos; lia).
  assert (Hst : scaled t = (j * 2 ^ 1071)%Z).
  { apply eq_IZR. rewrite scaled_B2R, Hj. unfold ulp_min.
    rewrite Hsplit, !mult_IZR. field. }
  assert (Hse : scaled 0.125 = (1 * 2 ^ 1071)%Z).
  { unfold scaled.
    change (Prim2SF 0.125) with (S754_finite false 4503599627370496 (-55)).
    cbn [scaled_sf cond_Zopp].
    change 4503599627370496%Z with (2 ^ 52)%Z.
    rewrite <- Z.pow_add_r by lia. rewrite Z.mul_1_l. reflexivity. }
  assert (H1 : (0 < scaled t)%Z) by (rewrite Hst; nia).
  assert (H2 : (0 < scaled 0.125)%Z) by (rewrite Hse; lia).
  assert (H3 : (2 ^ (-3 + 1074) | scaled t)%Z).
  { rewrite Hst. replace (-3 + 1074)%Z with 1071%Z by lia.
    apply Z.divide_factor_r. }
  assert (H4 : (2 ^ (-3 + 1074) | scaled 0.125)%Z).
  { rewrite Hse. replace (-3 + 1074)%Z with 1071%Z by lia.
    apply Z.divide_factor_r. }
  assert (H5 : (scaled t + scaled 0.125 < 2 ^ (53 + -3 + 1074))%Z).
  { rewrite Hst, Hse. replace (53 + -3 + 1074)%Z with (53 + 1071)%Z by lia.
    rewrite Z.pow_add_r by lia. nia. }
  destruct (add_grid t 0.125 (-3) Ht eq_refl H1 H2 ltac:(lia) H3 H4 H5)
    as [Hf Hs].
  split; [exact Hf |].
  rewrite (B2R_scaled (t + 0.125)), Hs, plus_IZR, !scaled_B2R, B2R_0125.
  field. lra.
Qed.

End Binary64Rounding.

(** * Binary64: NaN and the comparisons *)

Section Binary64Order.

Import Binary64.

(** Swapping the arguments of a comparison reverses its result. *)
Lemma SFcompare_antisym (x y : spec_float) :
  SFcompare x y = option_map CompOpp (SFcompare y x).
Proof.
  destruct x as [sx | sx | | sx mx ex], y as [sy | sy | | sy my ey];
    cbn [SFcompare option_map]; try reflexivity;
    try (destruct sx; reflexivity); try (destruct sy; reflexivity);
    try (destruct sx, sy; reflexivity).
  destruct sx, sy; cbn [CompOpp]; try reflexivity; f_equal;
    rewrite (Z.compare_antisym ex ey);
    destruct (ex ?= ey)%Z; cbn [CompOpp]; try reflexivity;
    rewrite (Pos.compare_cont_antisym my mx Eq); cbn [CompOpp];
    try reflexivity.
Qed.

Lemma SFcompare_None (x y : spec_float) :
  SFcompare x y = None -> x = S754_nan \/ y = S754_nan.
Proof.
  destruct x as [sx | sx | | sx mx ex], y as [sy | sy | | sy my ey];
    cbn [SFcompare]; try discriminate; auto.
Qed.

(** [is_nan] is [x != x]. *)
Lemma is_nan_false (x : float) :
  is_nan x = false -> Prim2SF x <> S754_nan.
Proof.
  unfold is_nan. rewrite FloatAxioms.eqb_spec. intros H Hx.
  rewrite Hx in H. discriminate H.
Qed.

Lemma not_finite_nan (x : float) :
  Prim2SF x = S754_nan -> is_finite x = false.
Proof. unfold is_finite. intros ->. reflexivity. Qed.

(** A NaN divisor or dividend gives NaN. *)
Lemma div_nan_r (x y : float) :
  Prim2SF y = S754_nan -> Prim2SF (x / y) = S754_nan.
Proof.
  intros Hy. rewrite FloatAxioms.div_spec, Hy.
  destruct (Prim2SF x); reflexivity.
Qed.

Lemma div_nan_l (x y : float) :
  Prim2SF x = S754_nan -> Prim2SF (x / y) = S754_nan.
Proof.
  intros Hx. rewrite FloatAxioms.div_spec, Hx. reflexivity.
Qed.

(** NaN is below nothing. *)
Lemma ltb_nan_l (x y : float) :
  Prim2SF x = S754_nan -> (x <? y)%float = false.
Proof.
  intros Hx. rewrite FloatAxioms.ltb_spec, Hx. reflexivity.
Qed.

(** Between two numbers, "not above" is "at most". *)
Lemma not_above_leb (x y : float) :
  Prim2SF x <> S754_nan -> Prim2SF y <> S754_nan ->
  (y <? x)%float = false -> (x <=? y)%float = true.
Proof.
  intros Hx Hy. rewrite FloatAxioms.ltb_spec, FloatAxioms.leb_spec.
  unfold SFltb, SFleb. rewrite (SFcompare_antisym (Prim2SF x)).
  destruct (SFcompare (Prim2SF y) (Prim2SF x)) as [[ | | ] |] eqn:Hc;
    cbn [option_map CompOpp]; try reflexivity; try discriminate.
  apply SFcompare_None in Hc. tauto.
Qed.

End Binary64Order.

(** * Binary64: calculate_plates *)

Section Binary64Plates.

Import Binary64.

#[local] Open Scope float_scope.

Variable pow : float -> float -> float.

Variables P_beam P_upper B_hss beam_width beam_height beam_offset
          lvl_bearing F_y phi load_factor : float.

#[local] Ltac bind_step :=
  cbv beta iota delta [bind].

(** What a run of the [try] block that reaches the [return] went through. *)
Lemma plates_body_binary64_inv (p : plates) :
  plates_body pow P_beam P_upper B_hss beam_width beam_height beam_offset
    lvl_bearing F_y phi load_factor = Return p ->
  exists (quarters : Z) (root : float) (eighths : Z),
    ceil (raw_bearing_length P_beam load_factor lvl_bearing beam_width B_hss
          * 4) = Return quarters
    /\ N p = int_div quarters 4
    /\ B p = cap_width B_hss beam_width
    /\ (phi * F_y * B p * N p =? 0) = false
    /\ pow_half pow (cap_ratio P_beam P_upper B_hss beam_width F_y phi (N p))
       = Return root
    /\ round (cantilever B_hss beam_width beam_offset * root * 8)
       = Return eighths
    /\ t_cap p
       = (let t := max (int_div eighths 8) 0.375 in
          if t <? cantilever B_hss beam_width beam_offset * root
          then t + 0.125 else t)
    /\ bearing_stress p
       = bearing_stress_of P_beam load_factor beam_width (N p)
    /\ (lvl_bearing <? bearing_stress p) = false.
Proof.
  unfold plates_body, div.
  destruct (load_factor =? 0); [discriminate |]. bind_step.
  destruct (lvl_bearing =? 0); [discriminate |]. bind_step.
  destruct (beam_width =? 0); [discriminate |]. bind_step.
  fold (raw_bearing_length P_beam load_factor lvl_bearing beam_width B_hss).
  destruct (ceil _) as [quarters |] eqn:Hceil; [| discriminate]. bind_step.
  fold (cap_width B_hss beam_width).
  fold (cantilever B_hss beam_width beam_offset).
  destruct (_ =? 0) eqn:Hden; [discriminate |].
  fold (cap_ratio P_beam P_upper B_hss beam_width F_y phi
          (int_div quarters 4)).
  destruct (pow_half _ _) as [root |] eqn:Hroot; [| discriminate]. bind_step.
  destruct (round _) as [eighths |] eqn:Hround; [| discriminate]. bind_step.
  match goal with
  | |- match ?tb with Return _ => _ | Raise _ => _ end = _ -> _ =>
      destruct tb as [t_bearing |]; [| discriminate]
  end.
  bind_step.
  destruct (beam_width * int_div quarters 4 =? 0); [discriminate |].
  bind_step.
  fold (bearing_stress_of P_beam load_factor beam_width (int_div quarters 4)).
  destruct (lvl_bearing <? _) eqn:Hstress; [discriminate |].
  destruct (4 * B_hss =? 0); [discriminate |]. bind_step.
  destruct (2 * 2 * B_hss =? 0); [discriminate |]. bind_step.
  match goal with
  | |- match ?w with Return _ => _ | Raise _ => _ end = _ -> _ =>
      destruct w as [weld |]; [| discriminate]
  end.
  bind_step. intros H. apply Return_inj in H. subst p. cbn [N B t_cap bearing_stress].
  exists quarters, root, eighths. repeat split; try assumption; reflexivity.
Qed.

(** The value of N: line 70 rounds the computed length up to the next
    quarter. *)
Lemma bearing_length_value (quarters : Z) :
  ceil (raw_bearing_length P_beam load_factor lvl_bearing beam_width B_hss
        * 4) = Return quarters ->
  is_finite
    (raw_bearing_length P_beam load_factor lvl_bearing beam_width B_hss)
  = true
  /\ is_finite (int_div quarters 4) = true
  /\ B2R (int_div quarters 4)
     = round_up 4
         (B2R (raw_bearing_length P_beam load_factor lvl_bearing beam_width
                 B_hss)).
Proof.
  intros Hceil. apply ceil_Zceil in Hceil as (Hfin & Hint & Hq).
  destruct (B2R_mul_pow2 _ 4 2 four_pow2 ltac:(lia) Hfin) as [Hraw Hval].
  destruct (B2R_int_div_pow2 quarters 4 2 Hint float_of_int_4 ltac:(lia))
    as [HfN HvN].
  change (2 ^ 2)%Z with 4%Z in Hval, HvN.
  split; [exact Hraw |]. split; [exact HfN |].
  rewrite HvN, Hq, Hval. reflexivity.
Qed.

(** Lines 87-89 on the computed raw thickness. *)
Lemma t_cap_value (raw : float) (eighths : Z) :
  round (raw * 8) = Return eighths ->
  let t := max (int_div eighths 8) 0.375 in
  let t_cap := if t <? raw then t + 0.125 else t in
  is_finite raw = true /\ is_finite t_cap = true
  /\ B2R t_cap = t_cap_of (B2R raw).
Proof.
  intros Hround t t_cap.
  apply round_spec in Hround as (Hfin & Hint & Hr & Hsmall).
  destruct (B2R_mul_pow2 _ 8 3 eight_pow2 ltac:(lia) Hfin) as [Hraw Hval].
  destruct (B2R_int_div_pow2 eighths 8 3 Hint float_of_int_8 ltac:(lia))
    as [Hf0 Hv0].
  change (2 ^ 3)%Z with 8%Z in Hval, Hv0.
  destruct (max_finite (int_div eighths 8) 0.375 Hf0 eq_refl) as [Hft Hvt].
  fold t in Hft, Hvt. rewrite Hv0, B2R_0375 in Hvt.
  split; [exact Hraw |].
  unfold t_cap_of. rewrite <- Hval, <- Hr, <- Hvt.
  unfold t_cap. destruct (t <? raw) eqn:Hlt.
  - apply ltb_B2R in Hlt; try assumption.
    destruct (Rlt_dec (B2R t) (B2R raw)) as [_ | Hn]; [| contradiction].
    assert (Hj : B2R t = (IZR (Z.max eighths 3) / 8)%R).
    { rewrite Hvt. unfold Rmax.
      destruct (Rle_dec (IZR eighths / 8) 0.375) as [Hle | Hgt].
      - rewrite Z.max_r; [lra |].
        apply le_IZR. lra.
      - rewrite Z.max_l; [reflexivity |].
        apply le_IZR. lra. }
    assert (Hsm : (Z.abs eighths <= 2 ^ 52)%Z).
    { destruct Hsmall as [Hex | Hsm]; [exfalso | exact Hsm].
      rewrite Hval in Hex.
      assert (IZR eighths / 8 <= B2R t)%R by (rewrite Hvt; apply Rmax_l).
      lra. }
    change (2 ^ 52)%Z with 4503599627370496%Z in Hsm.
    destruct (B2R_add_eighth t (Z.max eighths 3) Hft Hj) as [Hfc Hvc].
    { change (2 ^ 53)%Z with 9007199254740992%Z. lia. }
    split; [exact Hfc |]. rewrite Hvc. lra.
  - apply ltb_false_B2R in Hlt; try assumption.
    destruct (Rlt_dec (B2R t) (B2R raw)) as [Hy | _]; [lra |].
    split; [exact Hft | reflexivity].
Qed.

(** A run that reaches the [return] had a number for lvl_bearing. *)
Lemma lvl_bearing_not_nan :
  is_finite
    (raw_bearing_length P_beam load_factor lvl_bearing beam_width B_hss)
  = true ->
  Prim2SF lvl_bearing <> S754_nan.
Proof.
  intros Hfin Hnan. unfold raw_bearing_length, max in Hfin.
  assert (Hq : Prim2SF (P_beam / load_factor * 1000 / lvl_bearing
                        / beam_width) = S754_nan)
    by (apply div_nan_l, div_nan_r, Hnan).
  rewrite (ltb_nan_l _ B_hss Hq) in Hfin.
  rewrite (not_finite_nan _ Hq) in Hfin. discriminate.
Qed.

Variable fmt : nat -> float -> string.
Variable str_num : float -> string.
Variable builtin_message : exn -> string.

(** C4: on every run of calculate_plates in binary64 that reaches the
    return statement, the bearing length N is the computed value of
    max((P_beam/load_factor)*1000/lvl_bearing/beam_width, B_hss) rounded up
    to a quarter inch (as real numbers: the least multiple of 1/4 that is
    not below it), and the computed bearing stress
    (P_beam/load_factor)*1000/(beam_width*N) is not above lvl_bearing: it
    is at most lvl_bearing unless it is NaN.  When the computed stress
    exceeds lvl_bearing the result is the error dictionary. *)
Theorem bearing_length_and_stress :
  let raw :=
    Binary64.raw_bearing_length P_beam load_factor lvl_bearing beam_width
      B_hss in
  (forall p,
     Binary64.plates_body pow P_beam P_upper B_hss beam_width beam_height
       beam_offset lvl_bearing F_y phi load_factor = Binary64.Return p ->
     Binary64.is_finite raw = true
     /\ Binary64.B2R (Binary64.N p) = round_up 4 (Binary64.B2R raw)
     /\ (Binary64.B2R raw <= Binary64.B2R (Binary64.N p)
         < Binary64.B2R raw + 1 / 4)%R
     /\ Binary64.bearing_stress p
        = Binary64.bearing_stress_of P_beam load_factor beam_width
            (Binary64.N p)
     /\ (lvl_bearing <? Binary64.bearing_stress p) = false
     /\ (is_nan (Binary64.bearing_stress p) = false ->
         (Binary64.bearing_stress p <=? lvl_bearing) = true))
  /\ (forall N,
        Binary64.bearing_length P_beam load_factor lvl_bearing beam_width
          B_hss = Binary64.Return N ->
        (lvl_bearing
           <? Binary64.bearing_stress_of P_beam load_factor beam_width N)
        = true ->
        keys (Binary64.calculate_plates pow fmt str_num builtin_message
                P_beam P_upper B_hss beam_width beam_height beam_offset
                lvl_bearing F_y phi load_factor) = error_keys).
Proof.
  cbv zeta. split.
  - intros p Hp.
    apply plates_body_binary64_inv in Hp
      as (quarters & root & eighths & Hceil & HN & _ & _ & _ & _ & _
          & Hstress & Hcheck).
    destruct (bearing_length_value quarters Hceil) as (Hraw & _ & Hval).
    rewrite HN at 1 2 3. rewrite Hval.
    split; [exact Hraw |]. split; [reflexivity |].
    split; [exact (round_up_bound 4 _ ltac:(lia)) |].
    split; [exact Hstress |]. split; [exact Hcheck |].
    intros Hnum. apply not_above_leb.
    + apply is_nan_false, Hnum.
    + apply lvl_bearing_not_nan, Hraw.
    + exact Hcheck.
  - intros N0 HN0 Hover. unfold calculate_plates.
    destruct (plates_body _ _ _ _ _ _ _ _ _ _ _) as [p | e] eqn:Hp;
      [exfalso | reflexivity].
    apply plates_body_binary64_inv in Hp
      as (quarters & root & eighths & Hceil & HN & _ & _ & _ & _ & _
          & Hstress & Hcheck).
    unfold bearing_length in HN0. rewrite Hceil in HN0.
    apply Return_inj in HN0. rewrite <- HN0, <- HN, <- Hstress in Hover.
    rewrite Hover in Hcheck. discriminate.
Qed.

(** C6: on every run of calculate_plates in binary64 that reaches the
    return statement, the cap-plate thickness t_cap is the computed raw
    value l * (2*(P_beam+P_upper)/(phi*F_y*B*N)) ** 0.5 rounded to the
    nearest 1/8 in, raised to 3/8 in, and stepped up by 1/8 in when still
    below the raw value; as real numbers this is the raw value rounded up
    to 1/8 in with a 3/8-in minimum, so t_cap >= max(raw, 0.375).  It
    holds whatever the last bit of the C library's pow is. *)
Theorem t_cap_rounded_up (p : Binary64.plates) :
  Binary64.plates_body pow P_beam P_upper B_hss beam_width beam_height
    beam_offset lvl_bearing F_y phi load_factor = Binary64.Return p ->
  exists root : float,
    Binary64.pow_half pow
      (Binary64.cap_ratio P_beam P_upper B_hss beam_width F_y phi
         (Binary64.N p)) = Binary64.Return root
    /\ let raw := Binary64.cantilever B_hss beam_width beam_offset * root in
       Binary64.is_finite raw = true
       /\ Binary64.is_finite (Binary64.t_cap p) = true
       /\ Binary64.B2R (Binary64.t_cap p) = t_cap_of (Binary64.B2R raw)
       /\ Binary64.B2R (Binary64.t_cap p)
          = Rmax (round_up 8 (Binary64.B2R raw)) 0.375
       /\ (Rmax (Binary64.B2R raw) 0.375
           <= Binary64.B2R (Binary64.t_cap p))%R
       /\ (Binary64.t_cap p <? raw) = false.
Proof.
  intros Hp.
  apply plates_body_binary64_inv in Hp
    as (quarters & root & eighths & _ & _ & _ & _ & Hroot & Hround & Ht
        & _ & _).
  exists root. split; [exact Hroot |]. cbv zeta.
  destruct (t_cap_value _ eighths Hround) as (Hraw & Hfin & Hval).
  cbv zeta in Hval, Hfin, Ht. rewrite <- Ht in Hval, Hfin.
  split; [exact Hraw |]. split; [exact Hfin |]. split; [exact Hval |].
  split; [rewrite Hval; apply t_cap_of_round_up |].
  pose proof (t_cap_of_covers
                (B2R (cantilever B_hss beam_width beam_offset * root)))
    as Hcov.
  rewrite <- Hval in Hcov. split; [exact Hcov |].
  apply ltb_false_B2R; try assumption.
  apply Rle_trans with (2 := Hcov). apply Rmax_l.
Qed.

End Binary64Plates.

Lemma bearing_length_and_stress_witness :
  exists p : Binary64.plates,
    Binary64.plates_body (fun x _ => PrimFloat.sqrt x)
      56 60.1 6 3 12 0 500 36 0.9 1.6 = Binary64.Return p
    /\ Binary64.B2R (Binary64.N p)
       = round_up 4
           (Binary64.B2R (Binary64.raw_bearing_length 56 1.6 500 3 6))
    /\ (Binary64.bearing_stress p <=? 500)%float = true.
Proof.
  destruct (Binary64.plates_body (fun x _ => PrimFloat.sqrt x)
              56 60.1 6 3 12 0 500 36 0.9 1.6) as [p | e] eqn:Hp;
    [| vm_compute in Hp; discriminate Hp].
  exists p. split; [reflexivity |].
  destruct (proj1 (bearing_length_and_stress (fun x _ => PrimFloat.sqrt x)
                     56 60.1 6 3 12 0 500 36 0.9 1.6
                     (fun _ _ => "#"%string) (fun _ => "#"%string)
                     (fun _ => "#"%string)) p Hp)
    as (_ & HN & _ & _ & _ & Hle).
  split; [exact HN |]. apply Hle.
  vm_compute in Hp. apply Return_inj in Hp. subst p. reflexivity.
Defined.

(** The claim of C4 fails where the loads overflow: for 1e308 kips on a
    width of -1e308 in the run reaches the return statement, and its
    bearing stress, infinity over infinity, is NaN, which is not at most
    lvl_bearing.  (The power of line 86 is taken of zero there, so the C
    library's [pow] is not called.) *)
Lemma bearing_stress_not_a_number :
  exists p : Binary64.plates,
    Binary64.plates_body (fun x _ => PrimFloat.sqrt x)
      1e308 (-1e308) 1e300 (-1e308) 12 0 500 36 0.9 1.6
    = Binary64.Return p
    /\ (Binary64.bearing_stress p <=? 500)%float = false
    /\ is_nan (Binary64.bearing_stress p) = true.
Proof.
  eexists. split; [vm_compute; reflexivity |]. split; reflexivity.
Qed.

Lemma t_cap_rounded_up_witness :
  exists (p : Binary64.plates) (root : float),
    Binary64.plates_body (fun x _ => PrimFloat.sqrt x)
      56 60.1 6 3 12 0 500 36 0.9 1.6 = Binary64.Return p
    /\ Binary64.B2R (Binary64.t_cap p)
       = Rmax (round_up 8
                 (Binary64.B2R (Binary64.cantilever 6 3 0 * root)%float))
              0.375
    /\ (Rmax (Binary64.B2R (Binary64.cantilever 6 3 0 * root)%float) 0.375
        <= Binary64.B2R (Binary64.t_cap p))%R.
Proof.
  destruct (Binary64.plates_body (fun x _ => PrimFloat.sqrt x)
              56 60.1 6 3 12 0 500 36 0.9 1.6) as [p | e] eqn:Hp;
    [| vm_compute in Hp; discriminate Hp].
  destruct (t_cap_rounded_up (fun x _ => PrimFloat.sqrt x)
              56 60.1 6 3 12 0 500 36 0.9 1.6 p Hp)
    as (root & _ & _ & _ & _ & Hup & Hcov & _).
  exists p, root. split; [reflexivity |]. split; [exact Hup | exact Hcov].
Defined.

(** * Binary64: select_hss_size *)

Section Binary64Scan.

Import Binary64.

#[local] Open Scope float_scope.

Variables P_total L beam_load beam_width F_y phi_c : float.

(** A row the loop goes past does not change the outcome of the rest. *)
Lemma scan_outcome_skip (s : section) (rest : list section)
    (r : result (option selection)) :
  inadequate P_total L beam_load beam_width F_y phi_c s ->
  scan_outcome P_total L beam_load beam_width F_y phi_c rest r ->
  scan_outcome P_total L beam_load beam_width F_y phi_c (s :: rest) r.
Proof.
  intros Hs. destruct r as [[sel |] | e]; cbn [scan_outcome].
  - intros (pre & t & post & Heq & Hsel & Hpre & Had).
    exists (s :: pre), t, post. rewrite Heq. auto.
  - intros Hall. constructor; assumption.
  - intros (He & pre & t & post & Heq & Hpre & Hsl & Hz).
    split; [exact He |]. exists (s :: pre), t, post. rewrite Heq. auto.
Qed.

(** The loop returns the first adequate row, or raises at the first row
    that passes the slenderness test and divides by zero. *)
Lemma select_loop_outcome (sizes : list section) :
  Forall row_regular sizes ->
  scan_outcome P_total L beam_load beam_width F_y phi_c sizes
    (select_loop P_total L beam_load beam_width F_y phi_c sizes).
Proof.
  induction sizes as [| s rest IH]; intros Hreg.
  - cbn. constructor.
  - inversion Hreg as [| s' rest' [Hsqrt Hden] Hrest]; subst.
    specialize (IH Hrest).
    destruct s as [[[[hss A] S_x] B_hss] weight].
    cbn [select_loop]. cbn [area] in Hsqrt, Hden.
    rewrite Hsqrt. cbv beta iota delta [bind]. unfold div at 1.
    rewrite Hden. cbv beta iota.
    change (K * L / (r_factor * PrimFloat.sqrt A))
      with (slenderness L (hss, A, S_x, B_hss, weight)).
    destruct (200 <? slenderness L (hss, A, S_x, B_hss, weight)) eqn:Hsl.
    + apply scan_outcome_skip; [left; exact Hsl | exact IH].
    + unfold div.
      change (phi_c * F_y * A)
        with (phi_Pn F_y phi_c (hss, A, S_x, B_hss, weight)).
      change (phi_c * F_y * S_x)
        with (phi_Mn F_y phi_c (hss, A, S_x, B_hss, weight)).
      destruct (phi_Pn F_y phi_c (hss, A, S_x, B_hss, weight) =? 0)
        eqn:HPn.
      { cbn [scan_outcome]. split; [reflexivity |].
        exists [], (hss, A, S_x, B_hss, weight), rest.
        repeat split; auto. left. exact HPn. }
      destruct (phi_Mn F_y phi_c (hss, A, S_x, B_hss, weight) =? 0)
        eqn:HMn.
      { cbn [scan_outcome]. split; [reflexivity |].
        exists [], (hss, A, S_x, B_hss, weight), rest.
        repeat split; auto. right. exact HMn. }
      cbv beta iota.
      change (P_total / phi_Pn F_y phi_c (hss, A, S_x, B_hss, weight)
              + beam_load * (B_hss / 2 - beam_width / 2)
                / phi_Mn F_y phi_c (hss, A, S_x, B_hss, weight))
        with (interaction P_total beam_load beam_width F_y phi_c
                (hss, A, S_x, B_hss, weight)).
      destruct (interaction P_total beam_load beam_width F_y phi_c
                  (hss, A, S_x, B_hss, weight) <=? 0.9) eqn:Hint.
      * cbn [scan_outcome].
        exists [], (hss, A, S_x, B_hss, weight), rest.
        repeat split; auto.
      * apply scan_outcome_skip; [| exact IH].
        right. repeat split; auto.
Qed.

(** On the catalog the square roots are taken of positive areas. *)
Lemma hss_sizes_row_regular : Forall row_regular hss_sizes.
Proof.
  unfold hss_sizes.
  repeat (apply Forall_cons; [split; reflexivity |]). apply Forall_nil.
Qed.

(** C1: for every binary64 input, select_hss_size returns the first row
    of the catalog that the loop accepts: its computed slenderness is not
    above 200 and its computed interaction ratio is at most 0.9 (every row
    before it has slenderness above 200 or an interaction ratio that is not
    at most 0.9), or the none-tuple when there is no such row -- unless the
    loop reaches a row that passes the slenderness test while the computed
    phi_c*F_y*A or phi_c*F_y*S is zero: then, and only then, it raises
    ZeroDivisionError.  When neither product is zero on any row, it
    returns. *)
Theorem select_hss_size_first_adequate :
  (forall r,
     Binary64.select_hss_size P_total L beam_load beam_width F_y phi_c
     = Binary64.Return r ->
     Binary64.first_adequate P_total L beam_load beam_width F_y phi_c r)
  /\ (forall e,
        Binary64.select_hss_size P_total L beam_load beam_width F_y phi_c
        = Binary64.Raise e ->
        e = Binary64.ZeroDivisionError
        /\ Binary64.reaches_zero_divisor P_total L beam_load beam_width
             F_y phi_c)
  /\ (Forall (Binary64.divisors_nonzero F_y phi_c) Binary64.hss_sizes ->
      exists r,
        Binary64.select_hss_size P_total L beam_load beam_width F_y phi_c
        = Binary64.Return r).
Proof.
  pose proof (select_loop_outcome hss_sizes hss_sizes_row_regular) as H.
  fold (select_hss_size P_total L beam_load beam_width F_y phi_c) in H.
  split; [| split].
  - intros r Hr. rewrite Hr in H. destruct r; exact H.
  - intros e He. rewrite He in H. exact H.
  - intros Hnz.
    destruct (select_hss_size P_total L beam_load beam_width F_y phi_c)
      as [r | e]; [exists r; reflexivity | exfalso].
    destruct H as (_ & pre & s & post & Heq & _ & _ & Hz).
    rewrite Forall_forall in Hnz.
    destruct (Hnz s) as [HPn HMn].
    { rewrite Heq. apply in_or_app. right. left. reflexivity. }
    destruct Hz as [Hz | Hz]; congruence.
Qed.

End Binary64Scan.

(** The theorem at the first level of the example: 116.1 kips on 120 in
    with the defaults. *)
Lemma select_hss_size_first_adequate_witness :
  exists r,
    Binary64.select_hss_size 116.1 120 56 3 46 0.9 = Binary64.Return r
    /\ Binary64.first_adequate 116.1 120 56 3 46 0.9 r.
Proof.
  destruct (select_hss_size_first_adequate 116.1 120 56 3 46 0.9)
    as (Hfirst & _ & Hreturns).
  destruct Hreturns as [r Hr].
  - unfold Binary64.hss_sizes.
    repeat (apply Forall_cons; [split; reflexivity |]). apply Forall_nil.
  - exists r. split; [exact Hr | exact (Hfirst r Hr)].
Defined.

(** The claim of C1 fails in two ways.  At F_y = 0 the first row passes
    the slenderness test and the division by phi_Pn = 0 raises
    ZeroDivisionError: nothing is returned.  For a length that is NaN the
    first row is returned although its slenderness, NaN, is not at most
    200. *)
Lemma select_hss_size_zero_yield :
  (~ exists r,
       Binary64.select_hss_size 116.1 120 56 3 0 0.9 = Binary64.Return r)
  /\ (exists s,
        Binary64.select_hss_size 116.1 nan 56 3 46 0.9
        = Binary64.Return (Some (Binary64.chosen s))
        /\ (Binary64.slenderness nan s <=? 200)%float = false).
Proof.
  split.
  - intros [r Hr]. vm_compute in Hr. discriminate Hr.
  - exists ("HSS6x6x3/16"%string, 4.30, 10.3, 6.0, 12.5)%float.
    split; reflexivity.
Qed.

(** * Further properties of the code *)

Lemma div_nonneg (x y : R) : 0 <= x -> 0 < y -> 0 <= x / y.
Proof.
  intros Hx Hy. unfold Rdiv. apply Rmult_le_pos; [exact Hx |].
  left. now apply Rinv_0_lt_compat.
Qed.

(** ** select_hss_size: lighter and shorter never needs more *)

Lemma split_earlier {A : Type} (b1 b2 a1 a2 : list A) (s1 s2 : A) :
  b1 ++ s1 :: a1 = b2 ++ s2 :: a2 ->
  (List.length b2 < List.length b1)%nat ->
  In s2 b1.
Proof.
  revert b2. induction b1 as [| x b1 IH]; intros b2 Heq Hlen.
  - simpl in Hlen. lia.
  - destruct b2 as [| y b2].
    + simpl in Heq. injection Heq as -> _. now left.
    + simpl in Heq. injection Heq as _ Heq. right.
      apply (IH b2 Heq). simpl in Hlen. lia.
Qed.

Lemma nth_error_split {A : Type} (b a : list A) (s : A) :
  nth_error (b ++ s :: a) (List.length b) = Some s.
Proof.
  induction b as [| x b IH]; [reflexivity | exact IH].
Qed.

Lemma adequate_monotone
    (P1 P2 L1 L2 beam_load beam_width F_y phi_c : R) (s : section) :
  0 < phi_c * F_y -> 0 < area s -> P1 <= P2 -> L1 <= L2 ->
  adequate P2 L2 beam_load beam_width F_y phi_c s ->
  adequate P1 L1 beam_load beam_width F_y phi_c s.
Proof.
  intros Hc HA HP HL [Hs Hi]. unfold adequate.
  assert (Hroot : 0 < sqrt (area s)) by now apply sqrt_lt_R0.
  split.
  - apply Rle_trans with (slenderness L2 s); [| exact Hs].
    unfold slenderness, K, r_factor, Rdiv.
    apply Rmult_le_compat_r; [| lra].
    left. apply Rinv_0_lt_compat. lra.
  - apply Rle_trans
      with (interaction P2 beam_load beam_width F_y phi_c s); [| exact Hi].
    unfold interaction. apply Rplus_le_compat_r.
    unfold Rdiv. apply Rmult_le_compat_r; [| exact HP].
    left. apply Rinv_0_lt_compat. now apply Rmult_lt_0_compat.
Qed.

(** X4: with phi_c*F_y positive, if a load and a post length get a section,
    every smaller load on every shorter post (same beam) gets one too, and
    never a larger one: its area is at most that of the first. *)
Theorem lighter_never_larger
    (P1 P2 L1 L2 beam_load beam_width F_y phi_c : R) (sel2 : selection) :
  0 < phi_c * F_y ->
  P1 <= P2 ->
  L1 <= L2 ->
  select_hss_size P2 L2 beam_load beam_width F_y phi_c = Return (Some sel2) ->
  exists sel1,
    select_hss_size P1 L1 beam_load beam_width F_y phi_c = Return (Some sel1)
    /\ selected_area sel1 <= selected_area sel2.
Proof.
  intros Hc HP HL Hsel2.
  assert (Hpos : Forall (fun s => 0 < area s) hss_sizes).
  { eapply Forall_impl; [| exact hss_sizes_positive].
    intros s Hs. exact (proj1 Hs). }
  pose proof (select_loop_sound _ _ _ _ _ _ _ _ Hpos Hsel2)
    as (b2 & s2 & a2 & Hsplit2 & -> & Had2 & _).
  assert (HA2 : 0 < area s2).
  { rewrite Forall_forall in Hpos. apply Hpos. rewrite Hsplit2.
    apply in_or_app. right. now left. }
  pose proof (adequate_monotone P1 P2 L1 L2 _ _ _ _ s2 Hc HA2 HP HL Had2)
    as Had1.
  destruct (select_loop_returns P1 L1 beam_load beam_width F_y phi_c
              hss_sizes (hss_sizes_regular F_y phi_c ltac:(lra)))
    as (r1 & Hr1).
  pose proof (select_loop_sound _ _ _ _ _ _ _ _ Hpos Hr1) as Hfirst1.
  destruct r1 as [sel1 |].
  - exists sel1. split; [exact Hr1 |].
    destruct Hfirst1 as (b1 & s1 & a1 & Hsplit1 & -> & _ & Hbefore1).
    assert (Hlen : (List.length b1 <= List.length b2)%nat).
    { destruct (Nat.le_gt_cases (List.length b1) (List.length b2))
        as [Hle | Hgt]; [exact Hle |].
      exfalso. rewrite Hsplit1 in Hsplit2.
      pose proof (split_earlier _ _ _ _ _ _ Hsplit2 Hgt) as Hin.
      rewrite Forall_forall in Hbefore1.
      destruct Had1 as [Hs Hi].
      destruct (Hbefore1 s2 Hin) as [Hbad | Hbad]; lra. }
    assert (Hn1 : nth_error hss_sizes (List.length b1) = Some s1)
      by (rewrite Hsplit1; apply nth_error_split).
    assert (Hn2 : nth_error hss_sizes (List.length b2) = Some s2)
      by (rewrite Hsplit2; apply nth_error_split).
    assert (Harea : area s1 <= area s2).
    { destruct (Nat.eq_dec (List.length b1) (List.length b2)) as [Heq | Hne].
      - rewrite Heq in Hn1. rewrite Hn1 in Hn2. injection Hn2 as ->. lra.
      - assert (Hlt : (List.length b1 < List.length b2)%nat) by lia.
        destruct (hss_sizes_areas_increase _ _ s1 s2 Hlt Hn1 Hn2). lra. }
    destruct s1 as [[[[hss1 A1] S1] B1] w1].
    destruct s2 as [[[[hss2 A2] S2] B2] w2]. exact Harea.
  - exfalso. simpl in Hfirst1. rewrite Forall_forall in Hfirst1.
    assert (Hin : In s2 hss_sizes)
      by (rewrite Hsplit2; apply in_or_app; right; now left).
    destruct Had1 as [Hs Hi].
    destruct (Hfirst1 s2 Hin) as [Hbad | Hbad]; lra.
Qed.

(** ** calculate_plates: when it fails and what it says *)

Lemma bearing_length_covers
    (P_beam load_factor lvl_bearing beam_width B_hss : R) :
  let N := bearing_length P_beam load_factor lvl_bearing beam_width B_hss in
  B_hss <= N
  /\ P_beam / load_factor * 1000 / lvl_bearing / beam_width <= N.
Proof.
  cbv zeta. unfold bearing_length.
  pose proof (round_up_bound 4
    (raw_bearing_length P_beam load_factor lvl_bearing beam_width B_hss)
    ltac:(lia)) as [Hlow _].
  unfold raw_bearing_length in Hlow |- *.
  pose proof (Rmax_l (P_beam / load_factor * 1000 / lvl_bearing / beam_width)
                B_hss).
  pose proof (Rmax_r (P_beam / load_factor * 1000 / lvl_bearing / beam_width)
                B_hss).
  lra.
Qed.

Lemma cap_width_covers (B_hss beam_width : R) :
  B_hss + 2 <= cap_width B_hss beam_width
  /\ beam_width + 2 <= cap_width B_hss beam_width.
Proof.
  unfold cap_width. split; [apply Rmax_l | apply Rmax_r].
Qed.

(** For a post, a beam and an allowable stress that are positive, a positive
    phi*F_y and a total load that is not negative, nothing in the try block
    raises: the rounding of N keeps the bearing stress within lvl_bearing. *)
Lemma plates_ok_physical
    (P_beam P_upper B_hss beam_width beam_height beam_offset
     lvl_bearing F_y phi load_factor : R) :
  0 < B_hss -> 0 < beam_width -> 0 < lvl_bearing -> load_factor <> 0 ->
  0 < phi * F_y -> 0 <= P_beam + P_upper ->
  plates_ok P_beam P_upper B_hss beam_width beam_height beam_offset
    lvl_bearing F_y phi load_factor.
Proof.
  intros HB Hbw Hlvl Hlf Hc HP. unfold plates_ok, bearing_stress_of.
  destruct (bearing_length_covers P_beam load_factor lvl_bearing beam_width
              B_hss) as [HNB HNq].
  destruct (cap_width_covers B_hss beam_width) as [HcapB _].
  set (N := bearing_length P_beam load_factor lvl_bearing beam_width B_hss)
    in *.
  set (W := cap_width B_hss beam_width) in *.
  set (X := P_beam / load_factor * 1000) in *.
  assert (Hden : 0 < phi * F_y * W * N).
  { apply Rmult_lt_0_compat; [| lra]. apply Rmult_lt_0_compat; lra. }
  assert (HbwN : 0 < beam_width * N) by (apply Rmult_lt_0_compat; lra).
  repeat split; try lra.
  - apply div_nonneg; lra.
  - apply div_le_iff; [exact HbwN |].
    assert (HX : X = X / lvl_bearing / beam_width * (beam_width * lvl_bearing))
      by (field; lra).
    rewrite HX.
    replace (lvl_bearing * (beam_width * N))
      with (N * (beam_width * lvl_bearing)) by ring.
    apply Rmult_le_compat_r; [| exact HNq].
    left. apply Rmult_lt_0_compat; lra.
Qed.



Section Messages.

Variable fmt : nat -> R -> string.
Variable str_num : R -> string.
Variable builtin_message : exn -> string.

Variables P_beam P_upper B_hss beam_width beam_height beam_offset
          lvl_bearing F_y phi load_factor : R.


End Messages.

(** ** calculate_plates: the dimensions of a design *)

Lemma round_monotone (x y : R) : x <= y -> (round x <= round y)%Z.
Proof.
  intros Hxy.
  destruct (Z.le_gt_cases (round x) (round y)) as [Hle | Hgt]; [exact Hle |].
  exfalso.
  pose proof (round_bound x) as Hx. pose proof (round_bound y) as Hy.
  assert (H1 : IZR (round y) + 1 <= IZR (round x))
    by (rewrite <- plus_IZR; apply IZR_le; lia).
  (* then x = y = round y + 1/2, a tie that [round] breaks the same way *)
  assert (Hx' : x = IZR (round y) + 1 / 2) by lra.
  assert (Hy' : y = IZR (round y) + 1 / 2) by lra.
  assert (Heq : x = y) by lra. subst y. lia.
Qed.

Lemma weld_capacity : phi_Rn_weld = 0.75 * 0.707 * 0.6 * 70 * (3 / 16).
Proof. unfold phi_Rn_weld. lra. Qed.

(** The weld of lines 109-115 is never below the 3/16 in it starts from. *)
Lemma weld_size_of_minimum (P_beam P_upper B_hss : R) :
  3 / 16 <= weld_size_of P_beam P_upper B_hss.
Proof.
  unfold weld_size_of.
  destruct (Rgt_dec (weld_demand P_beam P_upper B_hss) phi_Rn_weld)
    as [Hgt | _]; [| lra].
  unfold raw_weld_size. rewrite weld_capacity in Hgt.
  set (demand := weld_demand P_beam P_upper B_hss) in *.
  assert (Hraw : 3 <= demand / (0.75 * 0.707 * 0.6 * 70) * 16).
  { assert (H : 3 / 16 < demand / (0.75 * 0.707 * 0.6 * 70))
      by (apply lt_div_iff; lra).
    lra. }
  assert (Hz : (3 <= round (demand / (0.75 * 0.707 * 0.6 * 70) * 16))%Z).
  { replace 3%Z with (round 3) by (apply round_eq; lra).
    now apply round_monotone. }
  apply IZR_le in Hz. lra.
Qed.


(** X9: the dimensions of every design are on the fabrication grid: N is a
    whole number of quarter inches, the cap-plate and bearing-plate
    thicknesses are whole numbers of eighths (at least 3 for the cap plate),
    the weld size is a whole number of sixteenths. *)
Theorem dimensions_on_grid
    (P_beam P_upper B_hss beam_width beam_height beam_offset
     lvl_bearing F_y phi load_factor : R) (p : plates) :
  plates_body P_beam P_upper B_hss beam_width beam_height beam_offset
    lvl_bearing F_y phi load_factor = Return p ->
  (exists k : Z, N p = IZR k / 4)
  /\ (exists k : Z, (3 <= k)%Z /\ t_cap p = IZR k / 8)
  /\ (exists k : Z, t_bearing p = IZR k / 8)
  /\ (exists k : Z, weld_size p = IZR k / 16).
Proof.
  intros Hrun. apply plates_body_inv in Hrun as [_ ->]. cbn.
  split; [| split; [| split]].
  - eexists. unfold bearing_length, round_up. reflexivity.
  - rewrite t_cap_of_round_up. unfold round_up.
    set (k := Zceil (_ * IZR 8)).
    destruct (Z.le_gt_cases 3 k) as [Hbig | Hsmall].
    + exists k. split; [exact Hbig |].
      apply IZR_le in Hbig. rewrite Rmax_left by lra. reflexivity.
    + exists 3%Z. split; [lia |].
      assert (Hk : IZR k <= 3) by (apply IZR_le; lia).
      rewrite Rmax_right by lra. lra.
  - rewrite t_bearing_of_round_up.
    destruct (Rlt_dec _ _).
    + eexists. unfold round_up. reflexivity.
    + exists 8%Z. lra.
  - unfold weld_size_of. destruct (Rgt_dec _ _).
    + eexists. reflexivity.
    + exists 3%Z. reflexivity.
Qed.


(** ** calculate_plates: more load from above *)

Lemma round_up_monotone (k : Z) (x y : R) :
  (0 < k)%Z -> x <= y -> round_up k x <= round_up k y.
Proof.
  intros Hk Hxy. unfold round_up.
  assert (HkR : 0 < IZR k) by now apply IZR_lt.
  unfold Rdiv. apply Rmult_le_compat_r.
  - left. now apply Rinv_0_lt_compat.
  - apply IZR_le. apply Zceil_le. now apply Rmult_le_compat_r; [lra |].
Qed.

Lemma cantilever_positive (B_hss beam_width beam_offset : R) :
  0 < B_hss -> 0 < cantilever B_hss beam_width beam_offset.
Proof.
  intros HB. unfold cantilever.
  destruct (cap_width_covers B_hss beam_width) as [Hcap _].
  set (W := cap_width B_hss beam_width) in *.
  apply Rlt_le_trans with ((W - 0.95 * B_hss) / 2); [lra |].
  eapply Rle_trans; [apply Rmax_l |]. apply Rmax_l.
Qed.

Lemma t_cap_of_monotone (x y : R) : x <= y -> t_cap_of x <= t_cap_of y.
Proof.
  intros Hxy. rewrite !t_cap_of_round_up.
  pose proof (round_up_monotone 8 x y ltac:(lia) Hxy) as Hup.
  apply Rmax_case_strong; intros _.
  - eapply Rle_trans; [exact Hup | apply Rmax_l].
  - apply Rmax_r.
Qed.

Lemma t_bearing_of_monotone (P1 P2 F_y B_hss : R) :
  0 < F_y -> 0 < B_hss -> P1 <= P2 ->
  t_bearing_of P1 F_y B_hss <= t_bearing_of P2 F_y B_hss.
Proof.
  intros HF HB HP. rewrite !t_bearing_of_round_up.
  assert (Hc : 0 < 0.75 * 1.8 * F_y * B_hss).
  { apply Rmult_lt_0_compat; [| exact HB].
    apply Rmult_lt_0_compat; [lra | exact HF]. }
  assert (Hraw : raw_t_bearing P1 F_y B_hss <= raw_t_bearing P2 F_y B_hss).
  { unfold raw_t_bearing, Rdiv. apply Rmult_le_compat_r; [| lra].
    left. now apply Rinv_0_lt_compat. }
  destruct (Rlt_dec _ (P1 / 2)) as [H1 | H1];
    destruct (Rlt_dec _ (P2 / 2)) as [H2 | H2]; try lra.
  - now apply round_up_monotone; [lia |].
  - pose proof (round_up_bound 8 (raw_t_bearing P2 F_y B_hss) ltac:(lia)).
    assert (1 < raw_t_bearing P2 F_y B_hss)
      by (unfold raw_t_bearing; apply lt_div_iff; lra).
    lra.
Qed.

Lemma weld_size_of_monotone (P_beam P1 P2 B_hss : R) :
  0 < B_hss -> P1 <= P2 ->
  weld_size_of P_beam P1 B_hss <= weld_size_of P_beam P2 B_hss.
Proof.
  intros HB HP.
  assert (Hdemand : weld_demand P_beam P1 B_hss <= weld_demand P_beam P2 B_hss).
  { unfold weld_demand.
    assert (Hinv : 0 < / (4 * B_hss)) by (apply Rinv_0_lt_compat; lra).
    assert (Hinv' : 0 < / (2 * 2 * B_hss)) by (apply Rinv_0_lt_compat; lra).
    apply Rmax_lub.
    - eapply Rle_trans; [| apply Rmax_l].
      unfold Rdiv. apply Rmult_le_compat_r; lra.
    - eapply Rle_trans; [| apply Rmax_r].
      unfold Rdiv. apply Rmult_le_compat_r; lra. }
  pose proof (weld_size_of_minimum P_beam P2 B_hss) as Hmin.
  unfold weld_size_of in Hmin |- *.
  destruct (Rgt_dec (weld_demand P_beam P1 B_hss) phi_Rn_weld) as [H1 | H1];
    destruct (Rgt_dec (weld_demand P_beam P2 B_hss) phi_Rn_weld) as [H2 | H2];
    try lra.
  unfold Rdiv. apply Rmult_le_compat_r; [lra |].
  apply IZR_le. apply round_monotone.
  unfold raw_weld_size. lra.
Qed.

(** X11: for positive phi, F_y and B_hss, a larger load from above never
    gives a thinner cap plate, thinner bearing plates or a smaller weld; the
    cap-plate length and width and the bearing stress do not depend on it. *)
Theorem more_load_never_less
    (P_beam P_upper P_upper' B_hss beam_width beam_height beam_offset
     lvl_bearing F_y phi load_factor : R) (p p' : plates) :
  0 < phi -> 0 < F_y -> 0 < B_hss ->
  P_upper <= P_upper' ->
  plates_body P_beam P_upper B_hss beam_width beam_height beam_offset
    lvl_bearing F_y phi load_factor = Return p ->
  plates_body P_beam P_upper' B_hss beam_width beam_height beam_offset
    lvl_bearing F_y phi load_factor = Return p' ->
  N p' = N p /\ B p' = B p /\ bearing_stress p' = bearing_stress p
  /\ t_cap p <= t_cap p'
  /\ t_bearing p <= t_bearing p'
  /\ weld_size p <= weld_size p'.
Proof.
  intros Hphi HF HB HP Hp Hp'.
  apply plates_body_inv in Hp as [_ ->].
  apply plates_body_inv in Hp' as [_ ->]. cbn.
  split; [reflexivity |]. split; [reflexivity |]. split; [reflexivity |].
  split; [| split].
  - apply t_cap_of_monotone. unfold raw_t_cap.
    pose proof (cantilever_positive B_hss beam_width beam_offset HB) as Hl.
    apply Rmult_le_compat_l; [lra |]. apply sqrt_le_1_alt.
    destruct (bearing_length_covers P_beam load_factor lvl_bearing beam_width
                B_hss) as [HNB _].
    destruct (cap_width_covers B_hss beam_width) as [Hcap _].
    unfold Rdiv. apply Rmult_le_compat_r; [| lra].
    left. apply Rinv_0_lt_compat.
    apply Rmult_lt_0_compat; [| lra].
    apply Rmult_lt_0_compat; [| lra].
    now apply Rmult_lt_0_compat.
  - now apply t_bearing_of_monotone.
  - now apply weld_size_of_monotone.
Qed.

(** ** process_column_stack: loads down the stack *)

Lemma sum_loads_nonneg (cases : list case) :
  Forall (fun c => 0 <= beam_load_of c) cases -> 0 <= sum_loads cases.
Proof.
  induction 1 as [| c rest Hc _ IH]; [unfold sum_loads; simpl; lra |].
  unfold sum_loads in *. simpl. lra.
Qed.

Lemma Forall_skipn {A : Type} (P : A -> Prop) (l : list A) (n : nat) :
  Forall P l -> Forall P (skipn n l).
Proof.
  intros H. revert n. induction H as [| x l Hx Hl IH]; intros n.
  - destruct n; simpl; constructor.
  - destruct n; simpl; [now constructor | exact (IH n)].
Qed.

Lemma sum_loads_skipn_step (cases : list case) (i : nat) :
  Forall (fun c => 0 <= beam_load_of c) cases ->
  sum_loads (skipn (S i) cases) <= sum_loads (skipn i cases).
Proof.
  intros Hall.
  destruct (nth_error cases i) as [c |] eqn:Hi.
  - pose proof (sum_loads_skipn cases i c Hi) as Hstep.
    assert (Hc : 0 <= beam_load_of c).
    { rewrite Forall_forall in Hall. apply Hall.
      eapply nth_error_In. exact Hi. }
    lra.
  - apply nth_error_None in Hi.
    rewrite !skipn_all2 by lia. lra.
Qed.

Lemma sum_loads_skipn_le (cases : list case) (i j : nat) :
  Forall (fun c => 0 <= beam_load_of c) cases ->
  (i <= j)%nat ->
  sum_loads (skipn j cases) <= sum_loads (skipn i cases).
Proof.
  intros Hall Hij. induction Hij as [| j _ IH]; [lra |].
  eapply Rle_trans; [apply sum_loads_skipn_step; exact Hall | exact IH].
Qed.

(** X12: when no beam load is negative, the cumulative totals never
    increase from one level to the next one up and none is negative; the
    bottom total is the sum of all beam loads, and the total of the top
    level is its own beam load, so that its plates are sized with P_upper
    equal to zero. *)
Theorem totals_decrease_upwards (cases : list case) :
  Forall (fun c => 0 <= beam_load_of c) cases ->
  (forall i j, (i <= j < List.length cases)%nat ->
     0 <= nth j (total_loads cases) 0 <= nth i (total_loads cases) 0)
  /\ nth 0 (total_loads cases) 0 = sum_loads cases
  /\ (forall c, nth_error cases (List.length cases - 1) = Some c ->
        nth (List.length cases - 1) (total_loads cases) 0 - beam_load_of c
        = 0).
Proof.
  intros Hall. rewrite total_loads_suffix_sums. split; [| split].
  - intros i j [Hij Hj].
    rewrite !suffix_sums_nth by lia. split.
    + apply sum_loads_nonneg. now apply Forall_skipn.
    + now apply sum_loads_skipn_le.
  - destruct cases as [| c rest]; reflexivity.
  - intros c Hc.
    assert (Hlen : (List.length cases - 1 < List.length cases)%nat).
    { apply nth_error_Some. rewrite Hc. discriminate. }
    rewrite suffix_sums_nth by exact Hlen.
    rewrite (sum_loads_skipn cases _ c Hc).
    rewrite skipn_all2 by lia. reflexivity.
Qed.

(** ** process_column_stack: levels and their neighbours *)

Section Neighbours.

Variable fmt : nat -> R -> string.
Variable str_num : R -> string.
Variable builtin_message : exn -> string.
Variable lvl_bearing : R.

(** What a level gets does not depend on its number, but for the label. *)
Lemma process_level_outcome (c : case) (P_total : R) :
  (forall i,
     process_level fmt str_num builtin_message lvl_bearing i c P_total
     = Return (level_error i))
  \/ exists hss plate_design,
       forall i,
         process_level fmt str_num builtin_message lvl_bearing i c P_total
         = Return (level_design i hss plate_design).
Proof.
  destruct c as [[[post_length beam_load] beam_width] beam_height].
  unfold process_level.
  destruct (select_hss_size_default P_total post_length beam_load beam_width)
    as (r & -> & _).
  cbn [bind]. destruct r as [[[[hss A_hss] S_hss] B_hss] |].
  - right. eexists. eexists. intros i. reflexivity.
  - left. intros i. reflexivity.
Qed.

(** X13: the levels below do not change what the levels above get: the
    entries of a stack put on top of other levels are those of the stack on
    its own, with the level numbers shifted by the number of levels
    below. *)
Theorem levels_below_do_not_matter (below above : list case) :
  exists results results',
    process_column_stack fmt str_num builtin_message (below ++ above)
      lvl_bearing = Return results
    /\ process_column_stack fmt str_num builtin_message above lvl_bearing
       = Return results'
    /\ List.length results
       = (List.length below + List.length results')%nat
    /\ forall k entry',
         nth_error results' k = Some entry' ->
         exists entry,
           nth_error results (List.length below + k) = Some entry
           /\ ((entry' = level_error (S k)
                /\ entry = level_error (S (List.length below + k)))
               \/ exists hss plate_design,
                    entry' = level_design (S k) hss plate_design
                    /\ entry
                       = level_design (S (List.length below + k)) hss
                           plate_design).
Proof.
  destruct (process_column_stack_entries fmt str_num builtin_message
              lvl_bearing (below ++ above)) as (results & Hrun & Hlen & Hnth).
  destruct (process_column_stack_entries fmt str_num builtin_message
              lvl_bearing above) as (results' & Hrun' & Hlen' & Hnth').
  exists results, results'.
  split; [exact Hrun |]. split; [exact Hrun' |].
  split; [rewrite Hlen, Hlen'; apply length_app |].
  intros k entry' Hk.
  assert (Hklen : (k < List.length above)%nat).
  { rewrite <- Hlen'. apply nth_error_Some. rewrite Hk. discriminate. }
  destruct (nth_error above k) as [c |] eqn:Hc;
    [| apply nth_error_None in Hc; lia].
  destruct (Hnth' k c Hc) as (e' & He' & Hlevel').
  rewrite Hk in He'. injection He' as <-.
  assert (Hc2 : nth_error (below ++ above) (List.length below + k) = Some c).
  { rewrite nth_error_app2 by lia.
    replace (List.length below + k - List.length below)%nat with k by lia.
    exact Hc. }
  destruct (Hnth _ c Hc2) as (entry & Hentry & Hlevel).
  exists entry. split; [exact Hentry |].
  assert (Hskip : skipn (List.length below + k) (below ++ above)
                  = skipn k above).
  { rewrite skipn_app.
    replace (List.length below + k - List.length below)%nat with k by lia.
    rewrite skipn_all2 by lia. reflexivity. }
  rewrite Hskip in Hlevel.
  destruct (process_level_outcome c (sum_loads (skipn k above)))
    as [Herr | (hss & plate_design & Hdesign)].
  - left. rewrite Herr in Hlevel, Hlevel'.
    injection Hlevel as <-. injection Hlevel' as <-. now split.
  - right. exists hss, plate_design.
    rewrite Hdesign in Hlevel, Hlevel'.
    injection Hlevel as <-. injection Hlevel' as <-. now split.
Qed.

End Neighbours.

(** ** The main block *)

Lemma select_first_row (P_total L beam_load beam_width : R) :
  adequate P_total L beam_load beam_width 46 0.9
    ("HSS6x6x3/16"%string, 4.30, 10.3, 6.0, 12.5) ->
  select_hss_size P_total L beam_load beam_width 46 0.9
  = Return (Some ("HSS6x6x3/16"%string, 4.30, 10.3, 6.0)).
Proof.
  intros [Hs Hi]. unfold slenderness in Hs. unfold interaction in Hi.
  simpl in Hs, Hi.
  assert (Hroot : 0 < sqrt 4.30) by (apply sqrt_lt_R0; lra).
  unfold select_hss_size, hss_sizes. cbn [select_loop].
  rewrite math_sqrt_Return by lra. cbn [bind].
  rewrite div_Return by (unfold r_factor; lra). cbn [bind].
  rewrite if_Rgt_false by exact Hs.
  rewrite div_Return by lra. cbn [bind].
  rewrite div_Return by lra. cbn [bind].
  now rewrite if_Rle_true by exact Hi.
Qed.

Section MainRun.

Variable fmt : nat -> R -> string.
Variable str_num : R -> string.
Variable builtin_message : exn -> string.

Lemma level_on_first_row (i : nat)
    (post_length beam_load beam_width beam_height P_total : R) :
  adequate P_total post_length beam_load beam_width 46 0.9
    ("HSS6x6x3/16"%string, 4.30, 10.3, 6.0, 12.5) ->
  0 < beam_width -> 0 <= P_total ->
  process_level fmt str_num builtin_message 500 i
    (post_length, beam_load, beam_width, beam_height) P_total
  = Return (level_design i "HSS6x6x3/16"
              (plates_dict fmt
                 (plates_of beam_load (P_total - beam_load) 6.0 beam_width
                    beam_height 0 500 36 0.9 1.6))).
Proof.
  intros Had Hbw HP. unfold process_level.
  rewrite (select_first_row _ _ _ _ Had). cbn [bind].
  unfold calculate_plates.
  rewrite plates_body_ok; [reflexivity |].
  apply plates_ok_physical; lra.
Qed.

(** X15: the main block runs to its end: it prints eight lines, the entries
    of levels 1 to 4 each followed by an empty line; every level is on the
    first row of the catalog, HSS6x6x3/16, and none is an error. *)
Theorem main_prints_four_designs :
  exists p1 p2 p3 p4,
    main fmt str_num builtin_message
    = Return [ level_design 1 "HSS6x6x3/16" (plates_dict fmt p1);
               EmptyString;
               level_design 2 "HSS6x6x3/16" (plates_dict fmt p2);
               EmptyString;
               level_design 3 "HSS6x6x3/16" (plates_dict fmt p3);
               EmptyString;
               level_design 4 "HSS6x6x3/16" (plates_dict fmt p4);
               EmptyString ]
    /\ plates_body 56 (0 + 0.1 + 20 + 40 + 56 - 56) 6.0 3 12 0 500 36 0.9 1.6
       = Return p1
    /\ plates_body 40 (0 + 0.1 + 20 + 40 - 40) 6.0 3.5 14 0 500 36 0.9 1.6
       = Return p2
    /\ plates_body 20 (0 + 0.1 + 20 - 20) 6.0 2.5 10 0 500 36 0.9 1.6
       = Return p3
    /\ plates_body 0.1 (0 + 0.1 - 0.1) 6.0 2.5 10 0 500 36 0.9 1.6
       = Return p4.
Proof.
  assert (Hroot : 2 <= sqrt 4.30) by (apply sqrt_lower; lra).
  assert (Hslender : forall L, L <= 144 ->
            slenderness L ("HSS6x6x3/16"%string, 4.30, 10.3, 6.0, 12.5)
            <= 200).
  { intros L HL. unfold slenderness. simpl.
    apply div_le_iff; unfold K, r_factor; lra. }
  do 4 eexists. split.
  - unfold main, process_column_stack.
    rewrite example_total_loads. unfold example_cases.
    cbn [combine process_levels].
    rewrite level_on_first_row;
      [| split; [apply Hslender; lra | unfold interaction; simpl; lra]
       | lra | lra ].
    cbn [bind].
    rewrite level_on_first_row;
      [| split; [apply Hslender; lra | unfold interaction; simpl; lra]
       | lra | lra ].
    cbn [bind].
    rewrite level_on_first_row;
      [| split; [apply Hslender; lra | unfold interaction; simpl; lra]
       | lra | lra ].
    cbn [bind].
    rewrite level_on_first_row;
      [| split; [apply Hslender; lra | unfold interaction; simpl; lra]
       | lra | lra ].
    cbn [bind app print_results]. reflexivity.
  - repeat split; apply plates_body_ok; apply plates_ok_physical; lra.
Qed.

End MainRun.

(** ** Stacks put on stacks *)



(** ** The further properties on concrete inputs *)

(** [lighter_never_larger] from level 1 of the example to 60.1 kips on a
    post of 96 in. *)
Lemma lighter_never_larger_witness :
  exists sel1,
    select_hss_size 60.1 96 56 3 46 0.9 = Return (Some sel1)
    /\ selected_area sel1
       <= selected_area ("HSS6x6x3/16"%string, 4.30, 10.3, 6.0).
Proof.
  apply (lighter_never_larger 60.1 116.1 96 120 56 3 46 0.9 _
           ltac:(lra) ltac:(lra) ltac:(lra) level_1_selection).
Defined.



(** [dimensions_on_grid] on level 1 of the example. *)
Lemma dimensions_on_grid_witness :
  (exists k : Z, 23.5 = IZR k / 4)
  /\ (exists k : Z, (3 <= k)%Z /\ 0.625 = IZR k / 8)
  /\ (exists k : Z, 1.0 = IZR k / 8)
  /\ (exists k : Z, 3 / 16 = IZR k / 16).
Proof.
  exact (dimensions_on_grid 56 (116.1 - 56) 6.0 3 12 0 500 36 0.9 1.6 _
           level_1_plates).
Defined.


(** [more_load_never_less] from level 1 of the example to 600 kips from
    above. *)
Lemma more_load_never_less_witness :
  t_cap_of (raw_t_cap 56 (116.1 - 56) 6.0 3 0 36 0.9
              (bearing_length 56 1.6 500 3 6.0))
  <= t_cap_of (raw_t_cap 56 600 6.0 3 0 36 0.9
                 (bearing_length 56 1.6 500 3 6.0))
  /\ t_bearing_of (116.1 - 56) 36 6.0 <= t_bearing_of 600 36 6.0
  /\ weld_size_of 56 (116.1 - 56) 6.0 <= weld_size_of 56 600 6.0.
Proof.
  assert (Hok : plates_ok 56 (116.1 - 56) 6.0 3 12 0 500 36 0.9 1.6)
    by (apply plates_ok_physical; lra).
  assert (Hok' : plates_ok 56 600 6.0 3 12 0 500 36 0.9 1.6)
    by (apply plates_ok_physical; lra).
  destruct (more_load_never_less 56 (116.1 - 56) 600 6.0 3 12 0 500 36 0.9
              1.6 _ _ ltac:(lra) ltac:(lra) ltac:(lra) ltac:(lra)
              (plates_body_ok _ _ _ _ _ _ _ _ _ _ Hok)
              (plates_body_ok _ _ _ _ _ _ _ _ _ _ Hok'))
    as (_ & _ & _ & Hcap & Hbearing & Hweld).
  split; [exact Hcap |]. split; [exact Hbearing | exact Hweld].
Defined.

Lemma example_cases_physical :
  Forall (fun c => 0 <= beam_load_of c /\ 0 < beam_width_of c) example_cases.
Proof.
  unfold example_cases. repeat (apply Forall_cons; [simpl; lra |]).
  apply Forall_nil.
Qed.

(** [totals_decrease_upwards] on the example: levels 2 and 4. *)
Lemma totals_decrease_upwards_witness :
  0 <= nth 3 (total_loads example_cases) 0
    <= nth 1 (total_loads example_cases) 0.
Proof.
  apply (proj1 (totals_decrease_upwards example_cases
                  (Forall_impl _ (fun c H => proj1 H)
                     example_cases_physical))).
  cbn. lia.
Defined.
